(** * dnd-kit-plus: the drag-and-drop state machine and its orchestrator

    A shallow embedding of
    - [dnd-state.ts]   (the state shape, the actions and [dndStateReducer]),
    - the [DndNode] component (the registration a node writes into the
      callback registry),
    - [DndProvider.tsx] (the [onDragEnd] and [onDragOver] handlers),
    - [DndOverlay.tsx] (what [DndOverlayContent] renders),
    followed by the properties of the specification that were checked
    against it.

    JavaScript [Map]s are objects with identity: [state.over.set (..)]
    changes the map in place and every holder of the reference sees the
    change.  The embedding therefore keeps the maps in a store and lets the
    state hold references into it.  Arrays are never updated in place by
    this code (they are rebuilt with spread and [filter]), so they are
    plain lists. *)

From stdpp Require Import gmap strings list fin_maps.

(** ** Values *)

(** A value that is either [undefined] or a string: the keys of a [Map],
    and what reading the property [id] of an object gives. *)
Abbreviation JsId := (option string).

Definition undefined : JsId := None.

(** [String(v)] for such a value. *)
Definition String_ (v : JsId) : string :=
  match v with
  | None => "undefined"
  | Some s => s
  end.

(** Truthiness of such a value: [undefined] and the empty string are falsy. *)
Definition truthy (v : JsId) : bool :=
  match v with
  | None => false
  | Some s => negb (String.eqb s "")
  end.

(** [a !== b]. *)
Definition strict_neq (a b : JsId) : bool := bool_decide (a ≠ b).

(** How the evaluation of an expression ends: with a value, or with the
    [TypeError] that a property read on [null] / [undefined], or the
    iteration of a non-iterable, throws. *)
Inductive Completion (A : Type) : Type :=
  | Normal (a : A)
  | TypeError.
Arguments Normal {A} a.
Arguments TypeError {A}.

(** ** dnd-state.ts: the data model *)

Record Entity (T : Type) : Type := {
  id : string;
  namespace : string;
  state : T;
}.
Arguments id {T} _.
Arguments namespace {T} _.
Arguments state {T} _.

Inductive Status : Type := StatusOver | StatusLeave.

(** The objects the reducer stores as values of the [over] map:
    [{status: "over", entity}] or [{...current, status: "leave"}].  The
    second has no [entity] property when [current] is [undefined]. *)
Record OverEntry (T : Type) : Type := {
  status : Status;
  entity : option (Entity T);
}.
Arguments status {T} _.
Arguments entity {T} _.

(** The contents of a [Map] object. *)
Abbreviation MapContents T := (gmap JsId (OverEntry T)).

(** The store of [Map] objects, in allocation order; a reference is an
    index into it. *)
Abbreviation Store T := (list (MapContents T)).

(** The field [over]: a reference to a [Map], or [null]. *)
Inductive OverRef : Type :=
  | OverNull
  | OverMap (l : nat).

Record DragState (T : Type) : Type := {
  snap_dragging : list (Entity T);
  snap_over : OverRef;
}.
Arguments snap_dragging {T} _.
Arguments snap_over {T} _.

Record GlobalDndState (T : Type) : Type := {
  dragging : list (Entity T);
  over : OverRef;
  dropping : list (DragState T);
}.
Arguments dragging {T} _.
Arguments over {T} _.
Arguments dropping {T} _.

(** The payload object of a [drag-leave] action, as far as the code reads
    or writes it: the reducer reads [payload.id], the provider writes
    [payload.immediate]. *)
Record LeavePayload : Type := {
  leave_id : JsId;
  immediate : option bool;
}.

(** [GlobalDndAction].  The declared type gives [drag-leave] no payload;
    the provider dispatches it once with [{immediate: true}] and twice
    with none, and the reducer reads [action.payload.id], so the payload
    is kept here as optional. *)
Inductive GlobalDndAction (T : Type) : Type :=
  | DragStart (payload : list (Entity T))
  | DragOver (payload : Entity T)
  | DragLeave (payload : option LeavePayload)
  | DragLeaveResolved (payload_id : string)
  | DragCanceled
  | DropPending
  | DropResolved (payload_id : string)
  | DropCanceled (payload_id : string).
Arguments DragStart {T} payload.
Arguments DragOver {T} payload.
Arguments DragLeave {T} payload.
Arguments DragLeaveResolved {T} payload_id.
Arguments DragCanceled {T}.
Arguments DropPending {T}.
Arguments DropResolved {T} payload_id.
Arguments DropCanceled {T}.

(** [new Map()] / [new Map(m)]: a new object holding a copy of the
    entries; its reference is the next free index. *)
Definition new_Map {T} (h : Store T) (m : MapContents T) : Store T * nat :=
  (h ++ [m], length h).

(** The contents of the map behind a reference.  References come from
    [new_Map], so they lie within the store; outside it the lookup reads
    as the empty map. *)
Definition deref {T} (h : Store T) (l : nat) : MapContents T := h !!! l.

(** [initialGlobalDndState]: the store holds its one [new Map()]. *)
Definition initialStore (T : Type) : Store T := [∅].

Definition initialGlobalDndState (T : Type) : GlobalDndState T :=
  {| dragging := []; over := OverMap 0; dropping := [] |}.

(** [drop.over.id] for a snapshot [drop]: a [TypeError] on [null]; on a
    [Map] object, which has no property [id], [undefined]. *)
Definition over_dot_id (r : OverRef) : Completion JsId :=
  match r with
  | OverNull => TypeError
  | OverMap _ => Normal undefined
  end.

(** [state.dropping.filter((drop) => drop.over.id !== id)]: the callback
    runs on the elements in order, and what it throws ends the call. *)
Fixpoint filter_dropping {T} (id : string) (drops : list (DragState T))
  : Completion (list (DragState T)) :=
  match drops with
  | [] => Normal []
  | drop :: rest =>
      match over_dot_id (snap_over drop) with
      | TypeError => TypeError
      | Normal v =>
          match filter_dropping id rest with
          | TypeError => TypeError
          | Normal kept =>
              Normal (if strict_neq v (Some id) then drop :: kept else kept)
          end
      end
  end.

(** ** dnd-state.ts: [dndStateReducer]

    The result is the store after the call and how the call ended.  The
    [default] case of the [switch] has no counterpart: every action of
    the union has a case. *)
Definition dndStateReducer {T} (h : Store T) (st : GlobalDndState T)
    (action : GlobalDndAction T) : Store T * Completion (GlobalDndState T) :=
  match action with
  | DragStart payload =>
      (h, Normal {| dragging := payload;
                    over := over st;
                    dropping := dropping st |})
  | DragCanceled =>
      (h, Normal {| dragging := [];
                    over := over st;
                    dropping := dropping st |})
  | DragOver payload =>
      match over st with
      | OverNull => (h, TypeError)
      | OverMap l =>
          (* state.over.set(..) writes into the state's own map and
             returns it; new Map(..) then copies it *)
          let m := <[Some (id payload) :=
                       {| status := StatusOver; entity := Some payload |}]>
                     (deref h l) in
          let h1 := <[l := m]> h in
          let '(h2, l') := new_Map h1 m in
          (h2, Normal {| dragging := dragging st;
                         over := OverMap l';
                         dropping := dropping st |})
      end
  | DragLeave payload =>
      match over st, payload with
      | OverNull, _ => (h, TypeError)
      | OverMap _, None => (h, TypeError)
      | OverMap l, Some p =>
          let current := deref h l !! leave_id p in
          let m := <[leave_id p :=
                       {| status := StatusLeave;
                          entity := current ≫= entity |}]>
                     (deref h l) in
          let h1 := <[l := m]> h in
          let '(h2, l') := new_Map h1 m in
          (h2, Normal {| dragging := dragging st;
                         over := OverMap l';
                         dropping := dropping st |})
      end
  | DragLeaveResolved payload_id =>
      match over st with
      | OverNull => (h, TypeError)
      | OverMap l =>
          (* state.over.delete(..) removes the key and returns a boolean;
             new Map(boolean) throws: a boolean is not iterable *)
          (<[l := delete (Some payload_id) (deref h l)]> h, TypeError)
      end
  | DropPending =>
      (h, Normal {| dragging := [];
                    over := OverNull;
                    dropping := dropping st ++
                      [ {| snap_dragging := dragging st;
                           snap_over := over st |} ] |})
  | DropResolved payload_id
  | DropCanceled payload_id =>
      match filter_dropping payload_id (dropping st) with
      | TypeError => (h, TypeError)
      | Normal kept =>
          (h, Normal {| dragging := dragging st;
                        over := over st;
                        dropping := kept |})
      end
  end.

(** What the provider's [dispatch] does to the state held by
    [useReducer]: the actions are reduced in the order dispatched; a
    reducer that throws ends the run. *)
Fixpoint dispatch_all {T} (h : Store T) (st : GlobalDndState T)
    (actions : list (GlobalDndAction T))
  : Store T * Completion (GlobalDndState T) :=
  match actions with
  | [] => (h, Normal st)
  | a :: rest =>
      match dndStateReducer h st a with
      | (h', Normal st') => dispatch_all h' st' rest
      | (h', TypeError) => (h', TypeError)
      end
  end.

(** The entries of the map the state's [over] refers to. *)
Definition over_entries {T} (h : Store T) (st : GlobalDndState T)
  : option (MapContents T) :=
  match over st with
  | OverNull => None
  | OverMap l => Some (deref h l)
  end.

(** ** [DndNode]: the callback registry *)

(** How an awaited call ends.  A call that throws before it returns a
    promise is caught by the same [try] as a rejected promise, so it
    counts as [Rejected]. *)
Inductive Outcome : Type := Fulfilled | Rejected.

(** [Promise.all]. *)
Definition Promise_all (ps : list Outcome) : Outcome :=
  if forallb (fun p => match p with Fulfilled => true | Rejected => false end) ps
  then Fulfilled else Rejected.

(** The object a node stores in the registry.  A handler is the function
    from its argument to the outcome of awaiting its call.  [onLeave] is
    present when the stored value is truthy; it then carries the outcome
    of [await fns.onLeave()].  ([onDragStart], always [handleDragState],
    is read by neither [onDragEnd] nor [onDragOver] and is left out.) *)
Record Registration (T : Type) : Type := {
  enableDrop : option (GlobalDndState T → bool);
  onLeave : option Outcome;
  onDrop : option (GlobalDndState T → Outcome);
}.
Arguments enableDrop {T} _.
Arguments onLeave {T} _.
Arguments onDrop {T} _.

Abbreviation Registry T := (gmap JsId (Registration T)).

(** The props of a [DndNode] that its registration depends on, and the
    contents of its two refs ([None] is [null]; a registered function is
    given by what calling it yields). *)
Record DndNodeProps (T : Type) : Type := {
  idProp : string;
  namespaceProp : string;
  enableDropProp : option (GlobalDndState T → bool);
  onDropProp : option (GlobalDndState T → Outcome);
  onDropPromise : option Outcome;
  onLeavePromise : option (option Outcome);
}.
Arguments idProp {T} _.
Arguments namespaceProp {T} _.
Arguments enableDropProp {T} _.
Arguments onDropProp {T} _.
Arguments onDropPromise {T} _.
Arguments onLeavePromise {T} _.

(** [const id = `${namespace}-${idProp}`]. *)
Definition node_id {T} (props : DndNodeProps T) : string :=
  namespaceProp props +:+ "-" +:+ idProp props.

(** [handleDrop]: [Promise.all([onDrop(...args), onDropPromise.current()])].
    Calling an [onDrop] that is [undefined], or a [current] that is
    [null], throws. *)
Definition handleDrop {T} (props : DndNodeProps T)
    (args : GlobalDndState T) : Outcome :=
  match onDropProp props with
  | None => Rejected
  | Some f =>
      let p1 := f args in
      match onDropPromise props with
      | None => Rejected
      | Some p2 => Promise_all [p1; p2]
      end
  end.

(** The layout effect of a node: [callbacks.set(id, {...})]. *)
Definition DndNode_register {T} (callbacks : Registry T)
    (props : DndNodeProps T) : Registry T :=
  <[Some (node_id props) :=
      {| enableDrop := enableDropProp props;
         onLeave := match onLeavePromise props with
                    | Some v => v
                    | None => None
                    end;
         onDrop := Some (handleDrop props) |}]> callbacks.

(** Its cleanup: [callbacks.delete(id)]. *)
Definition DndNode_unregister {T} (callbacks : Registry T)
    (props : DndNodeProps T) : Registry T :=
  delete (Some (node_id props)) callbacks.

(** The registry is written by nothing but these two. *)
Inductive RegistryOp (T : Type) : Type :=
  | Mount (props : DndNodeProps T)
  | Unmount (props : DndNodeProps T).
Arguments Mount {T} props.
Arguments Unmount {T} props.

Definition registry_step {T} (callbacks : Registry T) (op : RegistryOp T)
  : Registry T :=
  match op with
  | Mount props => DndNode_register callbacks props
  | Unmount props => DndNode_unregister callbacks props
  end.

(** The registry after a history of mounts and unmounts, from the
    [new Map()] the provider starts with. *)
Definition registry_after {T} (ops : list (RegistryOp T)) : Registry T :=
  foldl registry_step ∅ ops.

(** ** DndProvider.tsx: the event handlers *)

(** What a handler does that the outside can see, in order. *)
Inductive Effect (T : Type) : Type :=
  | ConsoleLog
  | ConsoleError
  | Dispatch (action : GlobalDndAction T).
Arguments ConsoleLog {T}.
Arguments ConsoleError {T}.
Arguments Dispatch {T} action.

(** The actions among the effects. *)
Definition dispatched {T} (effects : list (Effect T))
  : list (GlobalDndAction T) :=
  omap (fun e => match e with Dispatch a => Some a | _ => None end) effects.

(** [dragEvent.over] when it is not [null]: its id and
    [data.current.entities[0]] (a node passes a one-element array). *)
Record OverTarget (T : Type) : Type := {
  target_id : string;
  target_entity : Entity T;
}.
Arguments target_id {T} _.
Arguments target_entity {T} _.

(** [const hasDropCallback = fns?.onDrop]. *)
Definition hasDropCallback {T} (callbacks : Registry T) (id : string)
  : option (GlobalDndState T → Outcome) :=
  callbacks !! Some id ≫= onDrop.

(** [onDragEnd]. *)
Definition onDragEnd {T} (callbacks : Registry T) (st : GlobalDndState T)
    (ev_over : option (OverTarget T)) : list (Effect T) :=
  match ev_over with
  | None => [ConsoleLog; Dispatch DragCanceled]
  | Some target =>
      let id := target_id target in
      match hasDropCallback callbacks id with
      | None => [Dispatch (DropResolved id)]
      | Some fns_onDrop =>
          Dispatch DropPending ::
          match fns_onDrop st with
          | Fulfilled => [Dispatch (DropResolved id)]
          | Rejected => [ConsoleError; Dispatch (DropCanceled id)]
          end
      end
  end.

(** [onDragOver]; [over_id] is its [const id = dragEvent.over?.id]. *)
Definition onDragOver {T} (callbacks : Registry T) (st : GlobalDndState T)
    (ev_over : option (OverTarget T)) : list (Effect T) :=
  let over_id : JsId := target_id <$> ev_over in
  ConsoleLog ::
  let fns := callbacks !! over_id in
  if negb (truthy over_id) then
    match fns ≫= onLeave with
    | None =>
        [Dispatch (DragLeave
           (Some {| leave_id := undefined; immediate := Some true |}))]
    | Some awaited =>
        Dispatch (DragLeave None) ::
        match awaited with
        | Fulfilled => [Dispatch (DragLeaveResolved (String_ over_id))]
        | Rejected =>
            [ConsoleError; Dispatch (DragLeaveResolved (String_ over_id))]
        end
    end
  else
    match ev_over with
    | None => []
    | Some target =>
        if existsb (fun e => bool_decide (Some (id e) = over_id))
             (dragging st)
        then []
        else
          let enabled :=
            match fns ≫= enableDrop with
            | Some f => f st
            | None => true
            end in
          if enabled
          then [Dispatch (DragOver (target_entity target))]
          else [Dispatch (DragLeave None)]
    end.

(** ** DndOverlay.tsx *)

(** [entities.slice(0, end)] for an integer [end]: a negative [end]
    counts from the end of the array. *)
Definition slice0 {A} (l : list A) (end_ : Z) : list A :=
  let len := Z.of_nat (length l) in
  let final := if (end_ <? 0)%Z then Z.max (len + end_) 0 else Z.min end_ len in
  take (Z.to_nat final) l.

(** A [MountAnimation] element: what [renderEntity] returned, and the
    badge with the number it shows, when there is one. *)
Record MountAnimation (V : Type) : Type := {
  visual : V;
  badge : option nat;
}.
Arguments visual {V} _.
Arguments badge {V} _.

(** A [PositionedEntity] element: its index and its child. *)
Record PositionedEntity (V : Type) : Type := {
  pos_i : nat;
  pos_children : option (MountAnimation V);
}.
Arguments pos_i {V} _.
Arguments pos_children {V} _.

(** [DndOverlayContent]; [None] is the [null] it returns before the
    pointer has moved. *)
Definition DndOverlayContent {T V} (hasValue : bool)
    (maxEntityCount : option Z) (entities : list (Entity T))
    (renderEntity : Entity T → V) : option (list (PositionedEntity V)) :=
  let maxEntityCount := default 5%Z maxEntityCount in
  let totalEntityLength := length entities in
  let entitiesToRender := slice0 entities maxEntityCount in
  let renderedEntities :=
    imap (fun i entity =>
            {| visual := renderEntity entity;
               badge := if Nat.eqb i 0 && Nat.ltb 1 totalEntityLength
                        then Some totalEntityLength else None |})
         entitiesToRender in
  if negb hasValue then None
  else Some (imap (fun i entity =>
                     {| pos_i := i; pos_children := renderedEntities !! i |})
                  entitiesToRender).

(** [DndOverlay]: the content is mounted only while [isShowing]. *)
Definition DndOverlay {T V} (isShowing hasValue : bool)
    (maxEntityCount : option Z) (entities : list (Entity T))
    (renderEntity : Entity T → V) : option (list (PositionedEntity V)) :=
  if isShowing
  then DndOverlayContent hasValue maxEntityCount entities renderEntity
  else None.

(** The entities' visuals on screen, and whether a badge is. *)
Definition rendered_visuals {V} (out : option (list (PositionedEntity V)))
  : list V :=
  omap (fun p => visual <$> pos_children p) (default [] out).

Definition badge_shown {V} (out : option (list (PositionedEntity V)))
  : option nat :=
  list_find (fun b : option nat => is_Some b)
    ((fun p => pos_children p ≫= badge) <$> default [] out) ≫= snd.

(** ** Sample data *)

Definition entA : Entity unit := {| id := "grid-A"; namespace := "grid"; state := tt |}.
Definition entB : Entity unit := {| id := "grid-B"; namespace := "grid"; state := tt |}.
Definition entC : Entity unit := {| id := "grid-C"; namespace := "grid"; state := tt |}.

Definition over_entry {T} (e : Entity T) : OverEntry T :=
  {| status := StatusOver; entity := Some e |}.

(** The entries after a run of [drag-over]s on a map: each target's
    entry upserted in turn. *)
Definition upsert_all {T} (m : MapContents T) (es : list (Entity T))
  : MapContents T :=
  foldl (fun acc e => <[Some (id e) := over_entry e]> acc) m es.

(** The badge of the [MountAnimation] element at index [i]:
    [i === 0 && totalEntityLength > 1 && <div>{totalEntityLength}</div>]. *)
Definition badge_at (total i : nat) : option nat :=
  if Nat.eqb i 0 && Nat.ltb 1 total then Some total else None.

(** A registration has a drop handler. *)
Definition has_onDrop {T} (reg : Registration T) : Prop := is_Some (onDrop reg).

Definition immediate_leave : LeavePayload :=
  {| leave_id := undefined; immediate := Some true |}.

(** The state after [entA] was dragged over [entC] and dropped there:
    one snapshot in flight, whose [over] is the map with the entry of
    [entC]. *)
Definition storeC : Store unit := [ {[ Some "grid-C" := over_entry entC ]} ].

Definition droppedOnC : GlobalDndState unit :=
  {| dragging := [];
     over := OverNull;
     dropping := [ {| snap_dragging := [entA]; snap_over := OverMap 0 |} ] |}.

(** A node with a leave function registered by a descendant, and no
    [onDrop] prop. *)
Definition nodeC : DndNodeProps unit :=
  {| idProp := "C";
     namespaceProp := "grid";
     enableDropProp := None;
     onDropProp := None;
     onDropPromise := None;
     onLeavePromise := Some (Some Fulfilled) |}.

(** The same node given an [onDrop] whose promise fulfils, with a
    descendant's drop function registered that fulfils as well. *)
Definition nodeC_accepting : DndNodeProps unit :=
  {| idProp := "C";
     namespaceProp := "grid";
     enableDropProp := None;
     onDropProp := Some (fun _ => Fulfilled);
     onDropPromise := Some Fulfilled;
     onLeavePromise := None |}.

Definition targetC : OverTarget unit :=
  {| target_id := "grid-C"; target_entity := entC |}.

(** [entA] is being dragged. *)
Definition draggingA : GlobalDndState unit :=
  {| dragging := [entA]; over := OverMap 0; dropping := [] |}.

(** ** [DndNode]: what a node hands to the pointer engine, and its status *)

(** The one entity in the [data] of [useDraggable] and [useDroppable]:
    [{ id, state, namespace }], with [id] the qualified id and [state]
    the node's [state] prop. *)
Definition node_entity {T} (props : DndNodeProps T) (state_prop : T)
  : Entity T :=
  {| id := node_id props;
     namespace := namespaceProp props;
     state := state_prop |}.

(** [dragEvent.over] when the pointer is within the node. *)
Definition node_target {T} (props : DndNodeProps T) (state_prop : T)
  : OverTarget T :=
  {| target_id := node_id props;
     target_entity := node_entity props state_prop |}.

(** [DragStatus]. *)
Inductive DragStatus : Type :=
  | Idle
  | Dragging
  | Over
  | OverPending
  | OverResolved.

(** [dndContext.dropping.find((pending) => pending.over.id === id)]: the
    callback runs on the snapshots in order until one matches; what it
    throws ends the call. *)
Fixpoint find_pending {T} (node : string) (drops : list (DragState T))
  : Completion (option (DragState T)) :=
  match drops with
  | [] => Normal None
  | pending :: rest =>
      match over_dot_id (snap_over pending) with
      | TypeError => TypeError
      | Normal v =>
          if bool_decide (v = Some node) then Normal (Some pending)
          else find_pending node rest
      end
  end.

(** The [useMemo] of [DndNode] that derives [{ status, dragging }] from
    the global state, for the node whose qualified id is [node]. *)
Definition derive_status {T} (h : Store T) (dndContext : GlobalDndState T)
    (node : string) : Completion (DragStatus * list (Entity T)) :=
  match over dndContext with
  | OverNull => TypeError
  | OverMap l =>
      let isOver := match deref h l !! Some node with
                    | Some _ => true
                    | None => false
                    end in
      if isOver then Normal (Over, dragging dndContext)
      else
        let isDragging :=
          existsb (fun entity => String.eqb (id entity) node)
            (dragging dndContext) in
        if isDragging then Normal (Dragging, dragging dndContext)
        else
          match find_pending node (dropping dndContext) with
          | TypeError => TypeError
          | Normal (Some pending) => Normal (OverPending, snap_dragging pending)
          | Normal None => Normal (Idle, [])
          end
  end.

Definition DndNode_status {T} (h : Store T) (dndContext : GlobalDndState T)
    (props : DndNodeProps T) : Completion (DragStatus * list (Entity T)) :=
  derive_status h dndContext (node_id props).

(** ** DndProvider.tsx: the overlay it mounts *)

(** [const showing = state.dragging.length > 0] and the [DndOverlay]
    element, which is given no [maxEntityCount]. *)
Definition provider_overlay {T V} (st : GlobalDndState T) (hasValue : bool)
    (renderEntity : Entity T → V) : option (list (PositionedEntity V)) :=
  let showing := Nat.ltb 0 (length (dragging st)) in
  DndOverlay showing hasValue None (dragging st) renderEntity.

(** ** Kinds of actions *)

Definition is_DropPending {T} (a : GlobalDndAction T) : bool :=
  match a with
  | DropPending => true
  | _ => false
  end.

(** The actions whose case calls a method of [state.over]. *)
Definition calls_over {T} (a : GlobalDndAction T) : bool :=
  match a with
  | DragOver _ | DragLeave _ | DragLeaveResolved _ => true
  | _ => false
  end.

(** A snapshot whose [over] is a map. *)
Definition holds_map {T} (d : DragState T) : Prop := snap_over d ≠ OverNull.

(** Two nodes mounted under one qualified id, a state hovering nothing
    with [entA] and [entB] dragged, and a target no node registered. *)
Definition nodeA_b_c : DndNodeProps unit :=
  {| idProp := "b-c"; namespaceProp := "a";
     enableDropProp := None; onDropProp := None;
     onDropPromise := None; onLeavePromise := None |}.

Definition nodeAb_c : DndNodeProps unit :=
  {| idProp := "c"; namespaceProp := "a-b";
     enableDropProp := Some (fun _ => false);
     onDropProp := Some (fun _ => Fulfilled);
     onDropPromise := Some Fulfilled; onLeavePromise := None |}.

Definition draggingAB : GlobalDndState unit :=
  {| dragging := [entA; entB]; over := OverMap 0; dropping := [] |}.

Definition targetB : OverTarget unit :=
  {| target_id := "grid-B"; target_entity := entB |}.

(** A store of two maps, an entity with the id of [entA] in another
    namespace, and the targets of [entA] and of the node [nodeAb_c]. *)
Definition storeTwo : Store unit :=
  [ ∅; {[ Some "grid-C" := over_entry entC ]} ].


Definition targetA : OverTarget unit :=
  {| target_id := "grid-A"; target_entity := entA |}.

Definition targetAb_c : OverTarget unit := node_target nodeAb_c tt.

(** * Properties *)

Section Reducer.
Context {T : Type}.
Implicit Types (h : Store T) (st : GlobalDndState T) (e : Entity T).

(** ** The store *)

Lemma deref_new_Map h m :
  deref (fst (new_Map h m)) (snd (new_Map h m)) = m.
Proof.
  unfold deref, new_Map; simpl.
  apply list_lookup_total_correct.
  rewrite lookup_app_r by lia.
  by rewrite Nat.sub_diag.
Qed.

Lemma deref_app_lt h m l : l < length h → deref (h ++ [m]) l = deref h l.
Proof.
  intros Hl. unfold deref.
  destruct (lookup_lt_is_Some_2 h l Hl) as [x Hx].
  rewrite (list_lookup_total_correct _ _ _ Hx).
  apply list_lookup_total_correct.
  by rewrite lookup_app_l.
Qed.

Lemma deref_insert_eq h l m : l < length h → deref (<[l := m]> h) l = m.
Proof.
  intros Hl. unfold deref.
  apply list_lookup_total_correct. by apply list_lookup_insert_eq.
Qed.

(** ** [drag-over] *)

(** One [drag-over] on a state whose [over] is a map: the state gets a
    new map, the old map with the target's entry upserted; the old map
    itself has been written to as well. *)
Lemma reducer_drag_over h st l e :
  over st = OverMap l →
  dndStateReducer h st (DragOver e) =
    (<[l := <[Some (id e) := over_entry e]> (deref h l)]> h
       ++ [<[Some (id e) := over_entry e]> (deref h l)],
     Normal {| dragging := dragging st;
               over := OverMap (length h);
               dropping := dropping st |}).
Proof.
  intros Hov. unfold dndStateReducer. rewrite Hov.
  unfold new_Map. by rewrite length_insert.
Qed.

Lemma reducer_drag_over_null h st e :
  over st = OverNull → dndStateReducer h st (DragOver e) = (h, TypeError).
Proof. intros Hov. unfold dndStateReducer. by rewrite Hov. Qed.

Lemma dispatch_all_drag_over es : ∀ h st l,
  over st = OverMap l →
  es ≠ [] →
  ∃ h', dispatch_all h st (DragOver <$> es) =
          (h', Normal {| dragging := dragging st;
                         over := OverMap (pred (length h'));
                         dropping := dropping st |})
        ∧ 0 < length h'
        ∧ deref h' (pred (length h')) = upsert_all (deref h l) es.
Proof.
  induction es as [|e es IH]; intros h st l Hov Hne; [done|].
  rewrite fmap_cons. cbn [dispatch_all].
  rewrite (reducer_drag_over _ _ _ _ Hov).
  set (m := <[Some (id e) := over_entry e]> (deref h l)).
  set (h1 := <[l := m]> h ++ [m]).
  assert (Hlen : length h1 = S (length h)).
  { unfold h1. rewrite length_app, length_insert. simpl. lia. }
  assert (Hm : deref h1 (length h) = m).
  { unfold h1, deref. apply list_lookup_total_correct.
    rewrite lookup_app_r by (rewrite length_insert; lia).
    by rewrite length_insert, Nat.sub_diag. }
  destruct es as [|e' es].
  - exists h1. simpl. rewrite Hlen. simpl. split_and!; [done | lia | done].
  - destruct (IH h1 {| dragging := dragging st;
                       over := OverMap (length h);
                       dropping := dropping st |} (length h)) as (h' & Hrun & Hpos & Hd);
      [done | done |].
    exists h'. split_and!; [exact Hrun | done |].
    rewrite Hd, Hm. done.
Qed.

Lemma upsert_all_snoc m es e :
  upsert_all m (es ++ [e]) = <[Some (id e) := over_entry e]> (upsert_all m es).
Proof. unfold upsert_all. by rewrite foldl_app. Qed.

Lemma upsert_all_dom m es k :
  is_Some (upsert_all m es !! k) ↔
  is_Some (m !! k) ∨ ∃ e, e ∈ es ∧ k = Some (id e).
Proof.
  revert m. induction es as [|e es IH]; intros m; simpl.
  - split; [by left | intros [?|(e & He & _)]; [done | by apply elem_of_nil in He]].
  - rewrite IH. rewrite lookup_insert_is_Some. split.
    + intros [[Hk | [_ Hk]] | (e' & He' & ->)].
      * right. exists e. split; [left | done].
      * by left.
      * right. exists e'. split; [by right | done].
    + intros [Hk | (e' & He' & ->)].
      * destruct (decide (Some (id e) = k)) as [Heq|Hne]; left; [by left | by right].
      * apply elem_of_cons in He' as [-> | He'].
        -- left. by left.
        -- right. by exists e'.
Qed.
End Reducer.

Section ReducerClaims.
Context {T : Type}.
Implicit Types (h : Store T) (st : GlobalDndState T) (e : Entity T).

(** ** [drop-pending] *)

(** C1.  [drop-pending] empties [dragging] and appends exactly one
    snapshot [{dragging: old dragging, over: old over}] to [dropping],
    whatever [dropping] held; but it sets [over] to [null], not to an
    empty map: the state then has no [over] map at all, and the next
    [drag-over] throws in [state.over.set]. *)
Theorem drop_pending_sets_over_to_null h st :
  let st' := {| dragging := [];
                over := OverNull;
                dropping := dropping st ++
                  [ {| snap_dragging := dragging st;
                       snap_over := over st |} ] |} in
  dndStateReducer h st DropPending = (h, Normal st')
  ∧ length (dropping st') = S (length (dropping st))
  ∧ over_entries h st' = None
  ∧ ∀ e, dndStateReducer h st' (DragOver e) = (h, TypeError).
Proof.
  simpl. split_and!; try done.
  rewrite length_app. simpl. lia.
Qed.

(** ** [drop-resolved] and [drop-canceled] *)

(** The filter reads [id] off the snapshot's [over], which is a [Map]:
    it gets [undefined], which differs from every string, so every
    snapshot is kept. *)
Lemma filter_dropping_keeps_maps (id : string) (drops : list (DragState T)) :
  Forall (fun d => snap_over d ≠ OverNull) drops →
  filter_dropping id drops = Normal drops.
Proof.
  induction 1 as [|d drops Hd _ IH]; [done|].
  simpl. destruct (snap_over d) as [|l]; [done|]. simpl.
  by rewrite IH.
Qed.

(** A snapshot taken while [over] was [null] makes the filter throw. *)
Lemma filter_dropping_null (id : string) (d : DragState T) drops :
  snap_over d = OverNull → filter_dropping id (d :: drops) = TypeError.
Proof. intros Hd. simpl. by rewrite Hd. Qed.

Lemma drop_canceled_is_drop_resolved h st (id : string) :
  dndStateReducer h st (DropCanceled id) = dndStateReducer h st (DropResolved id).
Proof. reflexivity. Qed.

(** C2.  When the snapshots in flight hold maps (what [drop-pending]
    captures after a [drag-over]), [drop-resolved(id)] and
    [drop-canceled(id)] have the same effect, and that effect is none:
    no snapshot is removed, for any [id], also the id of a snapshot's
    drop target. *)
Theorem drop_resolved_removes_nothing h st (id : string) :
  Forall (fun d => snap_over d ≠ OverNull) (dropping st) →
  dndStateReducer h st (DropResolved id) = (h, Normal st)
  ∧ dndStateReducer h st (DropCanceled id) = (h, Normal st).
Proof.
  intros Hmaps. rewrite drop_canceled_is_drop_resolved.
  unfold dndStateReducer. rewrite (filter_dropping_keeps_maps _ _ Hmaps).
  by destruct st.
Qed.

(** ** [drag-leave] *)

(** C4.  The provider dispatches [drag-leave] either with no payload or
    with [{immediate: true}]; neither names a target.  On the first the
    reducer throws reading [action.payload.id].  On the second it
    writes [{status: "leave"}] under the key [undefined], and the entry
    of every target id [k] is what it was, status included. *)
Theorem drag_leave_as_dispatched h st (k : string) :
  snd (dndStateReducer h st (DragLeave None)) = TypeError
  ∧ match dndStateReducer h st (DragLeave (Some immediate_leave)) with
    | (h', Normal st') =>
        (over_entries h' st' ≫= (.!! Some k)) = (over_entries h st ≫= (.!! Some k))
        ∧ (status <$> (over_entries h' st' ≫= (.!! undefined))) = Some StatusLeave
    | (_, TypeError) => over st = OverNull
    end.
Proof.
  unfold dndStateReducer, over_entries.
  destruct (over st) as [|l] eqn:Hov; simpl; [done|].
  split; [done|].
  rewrite length_insert.
  pose proof (deref_new_Map (<[l:=<[undefined:={| status := StatusLeave;
      entity := deref h l !! undefined ≫= entity |}]> (deref h l)]> h)
    (<[undefined:={| status := StatusLeave;
      entity := deref h l !! undefined ≫= entity |}]> (deref h l))) as Hd.
  unfold new_Map in Hd; simpl in Hd. rewrite length_insert in Hd.
  rewrite Hd. split.
  - by rewrite lookup_insert_ne.
  - by rewrite lookup_insert_eq.
Qed.

(** Had the action carried the id of a hovered target, the entry's
    status would become ["leave"] and its entity would stay. *)
Lemma drag_leave_with_id h st l (k : string) (cur : OverEntry T) imm :
  over st = OverMap l →
  deref h l !! Some k = Some cur →
  ∃ h' st',
    dndStateReducer h st (DragLeave (Some {| leave_id := Some k; immediate := imm |}))
      = (h', Normal st')
    ∧ (over_entries h' st' ≫= (.!! Some k))
      = Some {| status := StatusLeave; entity := entity cur |}.
Proof.
  intros Hov Hcur. unfold dndStateReducer. rewrite Hov. simpl.
  eexists _, _. split; [reflexivity|].
  unfold over_entries. simpl. rewrite length_insert.
  set (m := <[Some k := _]> (deref h l)).
  pose proof (deref_new_Map (<[l:=m]> h) m) as Hd.
  unfold new_Map in Hd; simpl in Hd. rewrite length_insert in Hd.
  rewrite Hd. unfold m. rewrite lookup_insert_eq, Hcur. done.
Qed.

(** ** [drag-leave-resolved] *)

(** C5.  [drag-leave-resolved] returns no state at all, for any state
    and id: [state.over.delete(id)] is a boolean, and [new Map(boolean)]
    throws (as does [null.delete] when [over] is [null]). *)
Theorem drag_leave_resolved_throws h st (id : string) :
  snd (dndStateReducer h st (DragLeaveResolved id)) = TypeError.
Proof. unfold dndStateReducer. by destruct (over st). Qed.

(** Before it throws, it has removed the key from the state's map. *)
Lemma drag_leave_resolved_deletes_in_place h st l (id : string) :
  over st = OverMap l → l < length h →
  deref (fst (dndStateReducer h st (DragLeaveResolved id))) l
    = delete (Some id) (deref h l).
Proof.
  intros Hov Hl. unfold dndStateReducer. rewrite Hov. simpl.
  by apply deref_insert_eq.
Qed.

(** ** Purity *)

(** The actions that do not touch [over] leave the store as it was. *)
Lemma reducer_store_unchanged h st (a : GlobalDndAction T) :
  match a with
  | DragOver _ | DragLeave _ | DragLeaveResolved _ => True
  | _ => fst (dndStateReducer h st a) = h
  end.
Proof.
  destruct a; try done; simpl;
    by destruct (filter_dropping payload_id (dropping st)).
Qed.

(** C6.  [drag-over] on the initial state writes the target's entry
    into the map of the state it was given: [state.over.set(..)] runs
    on the input's own map, before [new Map(..)] copies it. *)
Theorem drag_over_mutates_input_state e :
  let h := initialStore T in
  let st := initialGlobalDndState T in
  over_entries h st = Some ∅
  ∧ over_entries (fst (dndStateReducer h st (DragOver e))) st
    = Some {[ Some (id e) := over_entry e ]}.
Proof. simpl. split; reflexivity. Qed.

(** In general: the map the input state refers to holds the new entry
    after the call. *)
Lemma drag_over_writes_in_place h st l e :
  over st = OverMap l → l < length h →
  deref (fst (dndStateReducer h st (DragOver e))) l
    = <[Some (id e) := over_entry e]> (deref h l).
Proof.
  intros Hov Hl. rewrite (reducer_drag_over _ _ _ _ Hov). simpl.
  rewrite deref_app_lt by (by rewrite length_insert).
  by apply deref_insert_eq.
Qed.
End ReducerClaims.

Section DragOverRuns.
Context {T : Type}.
Implicit Types (h : Store T) (st : GlobalDndState T) (e : Entity T).

Lemma upsert_all_empty_dom (es : list (Entity T)) (k : JsId) :
  k ∈ dom (upsert_all ∅ es) ↔ ∃ e, e ∈ es ∧ k = Some (id e).
Proof.
  rewrite elem_of_dom, upsert_all_dom, lookup_empty.
  split; [intros [[? ?]|?]; done | by right].
Qed.

(** C7, as it holds of the code.  From a state whose [over] map is empty, a non-empty
    run of [drag-over] actions ends in a state whose [over] map holds
    the entry of the most recently hovered target, and besides it an
    entry for every other target id hovered during the run: its keys
    are exactly the ids hovered.  It holds exactly one entry only when
    the whole run hovered one and the same id. *)
Theorem drag_over_run_accumulates h st (es : list (Entity T)) e_last :
  over_entries h st = Some ∅ →
  ∃ h' st' m,
    dispatch_all h st (DragOver <$> es ++ [e_last]) = (h', Normal st')
    ∧ dragging st' = dragging st
    ∧ dropping st' = dropping st
    ∧ over_entries h' st' = Some m
    ∧ m = upsert_all ∅ (es ++ [e_last])
    ∧ m !! Some (id e_last) = Some (over_entry e_last)
    ∧ (∀ k, is_Some (m !! k) ↔ ∃ e, e ∈ es ++ [e_last] ∧ k = Some (id e))
    ∧ (size m = 1 ↔ ∀ e, e ∈ es → id e = id e_last).
Proof.
  unfold over_entries. destruct (over st) as [|l] eqn:Hov; [done|].
  intros [= Hempty].
  destruct (dispatch_all_drag_over (es ++ [e_last]) h st l Hov)
    as (h' & Hrun & Hpos & Hd); [by destruct es|].
  rewrite Hempty in Hd.
  eexists h', _, (upsert_all ∅ (es ++ [e_last])).
  split_and!; [exact Hrun | done | done | simpl; by rewrite Hd | done | | | ].
  - rewrite upsert_all_snoc. apply lookup_insert_eq.
  - intros k. rewrite <- elem_of_dom. apply upsert_all_empty_dom.
  - rewrite <- (size_dom (D := gset JsId)). split.
    + intros Hsize e He.
      assert (Some (id e) = Some (id e_last)) as [= ->]; [|done].
      apply (size_singleton_inv _ _ _ Hsize); apply upsert_all_empty_dom.
      * exists e. split; [|done]. apply elem_of_app. by left.
      * exists e_last. split; [|done]. apply elem_of_app. right. by left.
    + intros Hsame.
      assert (dom (upsert_all ∅ (es ++ [e_last])) = ({[ Some (id e_last) ]} : gset JsId))
        as ->; [|apply size_singleton].
      apply set_eq. intros k. rewrite upsert_all_empty_dom, elem_of_singleton.
      split.
      * intros (e & He & ->). apply elem_of_app in He as [He|He].
        -- by rewrite (Hsame e He).
        -- by apply list_elem_of_singleton in He as ->.
      * intros ->. exists e_last. split; [|done].
        apply elem_of_app. right. by left.
Qed.
End DragOverRuns.

Section Provider.
Context {T : Type}.
Implicit Types (h : Store T) (st : GlobalDndState T).
Implicit Types (callbacks : Registry T) (ops : list (RegistryOp T)).

(** ** The registry *)

Lemma registry_step_undefined callbacks (op : RegistryOp T) :
  callbacks !! undefined = None → registry_step callbacks op !! undefined = None.
Proof.
  intros Hnone. destruct op as [props|props]; simpl.
  - unfold DndNode_register. by rewrite lookup_insert_ne.
  - unfold DndNode_unregister. by rewrite lookup_delete_ne.
Qed.

Lemma foldl_registry_step_undefined ops : ∀ callbacks,
  callbacks !! undefined = None →
  foldl registry_step callbacks ops !! undefined = None.
Proof.
  induction ops as [|op ops IH]; intros callbacks Hnone; [done|].
  simpl. apply IH. by apply registry_step_undefined.
Qed.

(** No node registers under the key [undefined]. *)
Lemma registry_after_undefined ops : registry_after ops !! undefined = None.
Proof. apply foldl_registry_step_undefined, lookup_empty. Qed.

Lemma registry_step_has_onDrop callbacks (op : RegistryOp T) :
  map_Forall (fun _ reg => has_onDrop reg) callbacks →
  map_Forall (fun _ reg => has_onDrop reg) (registry_step callbacks op).
Proof.
  intros Hall. destruct op as [props|props]; simpl.
  - apply map_Forall_insert_2; [by eexists | done].
  - by apply map_Forall_delete.
Qed.

Lemma foldl_registry_step_has_onDrop ops : ∀ callbacks,
  map_Forall (fun _ reg => has_onDrop reg) callbacks →
  map_Forall (fun _ reg => has_onDrop reg) (foldl registry_step callbacks ops).
Proof.
  induction ops as [|op ops IH]; intros callbacks Hall; [done|].
  simpl. apply IH. by apply registry_step_has_onDrop.
Qed.

Lemma registry_after_has_onDrop ops :
  map_Forall (fun _ reg => has_onDrop reg) (registry_after ops).
Proof. apply foldl_registry_step_has_onDrop, map_Forall_empty. Qed.

Lemma registry_after_snoc ops (op : RegistryOp T) :
  registry_after (ops ++ [op]) = registry_step (registry_after ops) op.
Proof. unfold registry_after. by rewrite foldl_app. Qed.

Lemma hasDropCallback_None ops (id : string) :
  hasDropCallback (registry_after ops) id = None ↔
  registry_after ops !! Some id = None.
Proof.
  unfold hasDropCallback. split.
  - destruct (registry_after ops !! Some id) as [reg|] eqn:Hreg; [|done].
    destruct (registry_after_has_onDrop ops _ _ Hreg) as [f Hf].
    simpl. by rewrite Hf.
  - by intros ->.
Qed.

(** C10.  Every registration in the registry has an [onDrop]; the one a
    node has just written is [handleDrop], whether or not the node was
    given an [onDrop] prop.  So [hasDropCallback] is falsy, and
    [onDragEnd] dispatches [drop-resolved] at once, exactly for the
    target ids that have no registry entry. *)
Theorem registered_onDrop_always_defined ops (props : DndNodeProps T)
    st (target : OverTarget T) :
  map_Forall (fun _ reg => has_onDrop reg) (registry_after ops)
  ∧ onDrop <$> registry_after (ops ++ [Mount props]) !! Some (node_id props)
    = Some (Some (handleDrop props))
  ∧ (hasDropCallback (registry_after ops) (target_id target) = None ↔
     registry_after ops !! Some (target_id target) = None)
  ∧ (onDragEnd (registry_after ops) st (Some target)
       = [Dispatch (DropResolved (target_id target))] ↔
     registry_after ops !! Some (target_id target) = None).
Proof.
  split_and!.
  - apply registry_after_has_onDrop.
  - rewrite registry_after_snoc. simpl. unfold DndNode_register.
    by rewrite lookup_insert_eq.
  - apply hasDropCallback_None.
  - rewrite <- hasDropCallback_None. unfold onDragEnd.
    destruct (hasDropCallback (registry_after ops) (target_id target)) as [f|];
      [|done].
    split; [|done]. by destruct (f st).
Qed.

(** ** [onDragOver] with no target *)

(** C3.  When the event reports no target, [onDragOver] looks up the
    registration of that absent id, not of the previous target; no node
    registers under [undefined], so [hasLeaveCallback] is always falsy:
    the handler dispatches [drag-leave] with [{immediate: true}] and
    returns.  The branch that awaits [onLeave] and dispatches
    [drag-leave-resolved] is never taken, whatever the registry holds
    for the previous target. *)
Theorem onDragOver_no_target_never_awaits_onLeave ops st :
  onDragOver (registry_after ops) st None
    = [ConsoleLog; Dispatch (DragLeave (Some immediate_leave))].
Proof.
  pose proof (registry_after_undefined ops) as Hnone.
  unfold onDragOver, undefined in *. simpl. by rewrite Hnone.
Qed.

(** ** [onDragEnd] with a rejecting handler *)

Lemma dispatch_all_app h st (xs ys : list (GlobalDndAction T)) :
  dispatch_all h st (xs ++ ys) =
    match dispatch_all h st xs with
    | (h', Normal st') => dispatch_all h' st' ys
    | (h', TypeError) => (h', TypeError)
    end.
Proof.
  revert h st. induction xs as [|x xs IH]; intros h st; [done|].
  simpl. destruct (dndStateReducer h st x) as [h' [st'|]]; [apply IH | done].
Qed.

(** C8.  When the target's [onDrop] rejects, [onDragEnd] dispatches
    [drop-pending], logs the error and dispatches [drop-canceled] with
    the target's id; when it fulfils, [drop-pending] and
    [drop-resolved] with that id.  The two runs leave the same store
    and the same state (or both throw), also when other actions were
    dispatched while the handler was awaited. *)
Theorem rejected_drop_same_state_as_resolved
    (rejecting fulfilling : Registry T) st (target : OverTarget T)
    (onDrop_r onDrop_f : GlobalDndState T → Outcome) :
  hasDropCallback rejecting (target_id target) = Some onDrop_r →
  onDrop_r st = Rejected →
  hasDropCallback fulfilling (target_id target) = Some onDrop_f →
  onDrop_f st = Fulfilled →
  onDragEnd rejecting st (Some target)
    = [Dispatch DropPending; ConsoleError;
       Dispatch (DropCanceled (target_id target))]
  ∧ onDragEnd fulfilling st (Some target)
    = [Dispatch DropPending; Dispatch (DropResolved (target_id target))]
  ∧ (∀ h, dispatch_all h st (dispatched (onDragEnd rejecting st (Some target)))
          = dispatch_all h st (dispatched (onDragEnd fulfilling st (Some target))))
  ∧ (∀ h st0 (meanwhile : list (GlobalDndAction T)),
       dispatch_all h st0
         (DropPending :: meanwhile ++ [DropCanceled (target_id target)])
       = dispatch_all h st0
         (DropPending :: meanwhile ++ [DropResolved (target_id target)])).
Proof.
  intros Hr Hrej Hf Hful.
  assert (Er : onDragEnd rejecting st (Some target)
    = [Dispatch DropPending; ConsoleError;
       Dispatch (DropCanceled (target_id target))]).
  { unfold onDragEnd. by rewrite Hr, Hrej. }
  assert (Ef : onDragEnd fulfilling st (Some target)
    = [Dispatch DropPending; Dispatch (DropResolved (target_id target))]).
  { unfold onDragEnd. by rewrite Hf, Hful. }
  split_and!; [done | done | |].
  - intros h. by rewrite Er, Ef.
  - intros h st0 meanwhile.
    rewrite !app_comm_cons, !dispatch_all_app.
    destruct (dispatch_all h st0 (DropPending :: meanwhile)) as [h' [st'|]];
      [|done].
    cbn [dispatch_all]. by rewrite drop_canceled_is_drop_resolved.
Qed.
End Provider.

Section Overlay.
Context {T V : Type}.
Implicit Types (entities : list (Entity T)) (renderEntity : Entity T → V).

Lemma slice0_nonneg {A} (l : list A) (n : Z) :
  (0 ≤ n)%Z → slice0 l n = take (Z.to_nat n) l.
Proof.
  intros Hn. unfold slice0.
  destruct (Z.ltb_spec n 0) as [?|_]; [lia|].
  destruct (Z.le_gt_cases n (Z.of_nat (length l))) as [Hle|Hgt].
  - by rewrite Z.min_l.
  - rewrite Z.min_r by lia. rewrite Nat2Z.id.
    rewrite !take_ge; [done | lia | lia].
Qed.

(** Every [PositionedEntity] finds its child: the two arrays have the
    same length. *)
Lemma DndOverlayContent_shown maxEntityCount entities renderEntity :
  DndOverlayContent true maxEntityCount entities renderEntity =
    Some (imap (fun i entity =>
                  {| pos_i := i;
                     pos_children :=
                       Some {| visual := renderEntity entity;
                               badge := badge_at (length entities) i |} |})
               (slice0 entities (default 5%Z maxEntityCount))).
Proof.
  unfold DndOverlayContent. simpl. f_equal.
  apply imap_ext. intros i x Hx. simpl.
  by rewrite list_lookup_imap, Hx.
Qed.

Lemma visuals_of_imap (F : nat → Entity T → PositionedEntity V)
    renderEntity (l : list (Entity T)) :
  (∀ i x, visual <$> pos_children (F i x) = Some (renderEntity x)) →
  omap (fun p => visual <$> pos_children p) (imap F l) = renderEntity <$> l.
Proof.
  revert F. induction l as [|x l IH]; intros F HF; [done|].
  simpl. rewrite HF. f_equal. apply IH. intros i y. apply HF.
Qed.

Lemma badges_after_first (F : nat → Entity T → PositionedEntity V)
    (l : list (Entity T)) :
  (∀ i x, pos_children (F i x) ≫= badge = None) →
  list_find (fun b : option nat => is_Some b)
    ((fun p => pos_children p ≫= badge) <$> imap F l) = None.
Proof.
  intros HF. apply list_find_None, Forall_forall.
  intros b Hb Hsome. apply list_elem_of_fmap in Hb as (p & -> & Hp).
  apply elem_of_lookup_imap in Hp as (i & x & -> & _).
  rewrite HF in Hsome. by destruct Hsome.
Qed.

Lemma badge_shown_imap total (l : list (Entity T)) renderEntity :
  badge_shown
    (Some (imap (fun i entity =>
                   {| pos_i := i;
                      pos_children :=
                        Some {| visual := renderEntity entity;
                                badge := badge_at total i |} |}) l))
  = match l with
    | [] => None
    | _ :: _ => if Nat.ltb 1 total then Some total else None
    end.
Proof.
  unfold badge_shown. destruct l as [|x l]; [done|].
  destruct (Nat.ltb 1 total) eqn:Hlt.
  - assert (badge_at total 0 = Some total) as Hb
      by (unfold badge_at; by rewrite Hlt).
    cbn -[badge_at list_find]. rewrite Hb. cbn [list_find].
    case_decide as Hsome; [done|]. destruct Hsome. by eexists.
  - assert (badge_at total 0 = None) as Hb
      by (unfold badge_at; by rewrite Hlt).
    cbn -[badge_at list_find]. rewrite Hb. cbn [list_find].
    case_decide as Hsome; [by destruct Hsome|].
    rewrite badges_after_first; [done|]. intros i y. done.
Qed.

(** C9, as it holds of the code.  With a maximum count that is not negative, and once
    the pointer has moved, the overlay shows the first max-count
    entities, in order, hence at most max-count of them; before that it
    shows nothing.  It shows a badge, with the number of entities
    dragged, exactly when more than one entity is dragged and at least
    one is shown - whether or not all of them are shown. *)
Theorem overlay_render_contract (hasValue : bool) (maxEntityCount : option Z)
    entities renderEntity :
  let n := default 5%Z maxEntityCount in
  let out := DndOverlayContent hasValue maxEntityCount entities renderEntity in
  (0 ≤ n)%Z →
  rendered_visuals out
    = (if hasValue then renderEntity <$> take (Z.to_nat n) entities else [])
  ∧ length (rendered_visuals out) ≤ Z.to_nat n
  ∧ badge_shown out
    = (if hasValue && Nat.ltb 1 (length entities) && (0 <? n)%Z
       then Some (length entities) else None).
Proof.
  intros n out Hn. subst out.
  destruct hasValue; [|split_and!; [done | simpl; lia | done]].
  rewrite DndOverlayContent_shown. fold n. rewrite (slice0_nonneg _ _ Hn).
  assert (Hvis : rendered_visuals
    (Some (imap (fun i entity =>
                   {| pos_i := i;
                      pos_children :=
                        Some {| visual := renderEntity entity;
                                badge := badge_at (length entities) i |} |})
                (take (Z.to_nat n) entities)))
    = renderEntity <$> take (Z.to_nat n) entities).
  { unfold rendered_visuals. simpl. by apply visuals_of_imap. }
  split_and!.
  - exact Hvis.
  - rewrite Hvis, length_fmap, length_take. lia.
  - rewrite badge_shown_imap. cbn [andb].
    destruct (Z.ltb_spec 0 n) as [Hpos|Hzero].
    + rewrite andb_true_r.
      destruct entities as [|x l]; [by rewrite take_nil|].
      destruct (Z.to_nat n) as [|k] eqn:Hk; [lia|]. done.
    + rewrite andb_false_r.
      assert (Z.to_nat n = 0) as -> by lia. by rewrite take_0.
Qed.
End Overlay.

(** * The properties at sample inputs *)

(** [drop-resolved] with the id of the drop target of the one snapshot in
    flight: the snapshot stays. *)
Lemma drop_resolved_on_C_keeps_snapshot :
  Forall (fun d => snap_over d ≠ OverNull) (dropping droppedOnC)
  ∧ dndStateReducer storeC droppedOnC (DropResolved "grid-C")
    = (storeC, Normal droppedOnC)
  ∧ dndStateReducer storeC droppedOnC (DropCanceled "grid-C")
    = (storeC, Normal droppedOnC).
Proof.
  assert (Hmaps : Forall (fun d : DragState unit => snap_over d ≠ OverNull)
                    (dropping droppedOnC))
    by (repeat constructor; discriminate).
  split; [exact Hmaps|].
  exact (drop_resolved_removes_nothing storeC droppedOnC "grid-C" Hmaps).
Defined.

(** The snapshot's map does hold the entry of that drop target. *)
Example droppedOnC_target :
  deref storeC 0 !! Some "grid-C" = Some (over_entry entC).
Proof. reflexivity. Qed.

(** The node of the previous target has a leave handler in the registry;
    it is not called. *)
Example nodeC_has_onLeave :
  onLeave <$> registry_after [Mount nodeC] !! Some "grid-C" = Some (Some Fulfilled)
  ∧ onDragOver (registry_after [Mount nodeC]) draggingA None
    = [ConsoleLog; Dispatch (DragLeave (Some immediate_leave))].
Proof. split; reflexivity. Qed.

(** The [drag-leave] the provider dispatches, on a state hovering
    [entC]: the entry of [entC] keeps the status ["over"]. *)
Example drag_leave_leaves_C_over :
  ∃ h' st',
    dndStateReducer storeC draggingA (DragLeave (Some immediate_leave))
      = (h', Normal st')
    ∧ (over_entries h' st' ≫= (.!! Some "grid-C")) = Some (over_entry entC)
    ∧ (over_entries h' st' ≫= (.!! undefined))
      = Some {| status := StatusLeave; entity := None |}.
Proof. eexists _, _. split; [reflexivity|]. split; reflexivity. Qed.

(** Not only the latest target: after [drag-over] of [entA] and then of
    [entB], the [over] map holds two entries, that of [entA] among
    them. *)
Lemma drag_over_two_targets_keeps_both :
  ∃ h' st' m,
    over_entries (initialStore unit) (initialGlobalDndState unit) = Some ∅
    ∧ dispatch_all (initialStore unit) (initialGlobalDndState unit)
        [DragOver entA; DragOver entB] = (h', Normal st')
    ∧ over_entries h' st' = Some m
    ∧ size m = 2
    ∧ m !! Some "grid-A" = Some (over_entry entA)
    ∧ m !! Some "grid-B" = Some (over_entry entB).
Proof.
  eexists _, _, _.
  split; [reflexivity|]. split; [reflexivity|]. split; [reflexivity|].
  split; [|split]; vm_compute; reflexivity.
Qed.

(** The run [entA], [entB], then [entC]: three entries. *)
Lemma drag_over_run_accumulates_ABC :
  over_entries (initialStore unit) (initialGlobalDndState unit) = Some ∅
  ∧ ∃ h' st' m,
      dispatch_all (initialStore unit) (initialGlobalDndState unit)
        (DragOver <$> [entA; entB] ++ [entC]) = (h', Normal st')
      ∧ dragging st' = dragging (initialGlobalDndState unit)
      ∧ dropping st' = dropping (initialGlobalDndState unit)
      ∧ over_entries h' st' = Some m
      ∧ m = upsert_all ∅ ([entA; entB] ++ [entC])
      ∧ m !! Some (id entC) = Some (over_entry entC)
      ∧ (∀ k, is_Some (m !! k) ↔ ∃ e, e ∈ [entA; entB] ++ [entC] ∧ k = Some (id e))
      ∧ (size m = 1 ↔ ∀ e, e ∈ [entA; entB] → id e = id entC).
Proof.
  split; [reflexivity|].
  apply (drag_over_run_accumulates (initialStore unit)
           (initialGlobalDndState unit) [entA; entB] entC).
  reflexivity.
Defined.

(** A drop of [entA] on the node C: without an [onDrop] prop its
    [handleDrop] rejects; with one that fulfils, it fulfils. *)
Lemma rejected_drop_on_C :
  hasDropCallback (registry_after [Mount nodeC]) (target_id targetC)
    = Some (handleDrop nodeC)
  ∧ handleDrop nodeC draggingA = Rejected
  ∧ hasDropCallback (registry_after [Mount nodeC_accepting]) (target_id targetC)
    = Some (handleDrop nodeC_accepting)
  ∧ handleDrop nodeC_accepting draggingA = Fulfilled
  ∧ onDragEnd (registry_after [Mount nodeC]) draggingA (Some targetC)
    = [Dispatch DropPending; ConsoleError;
       Dispatch (DropCanceled (target_id targetC))]
  ∧ onDragEnd (registry_after [Mount nodeC_accepting]) draggingA (Some targetC)
    = [Dispatch DropPending; Dispatch (DropResolved (target_id targetC))]
  ∧ (∀ h, dispatch_all h draggingA
            (dispatched (onDragEnd (registry_after [Mount nodeC]) draggingA
                           (Some targetC)))
          = dispatch_all h draggingA
            (dispatched (onDragEnd (registry_after [Mount nodeC_accepting])
                           draggingA (Some targetC))))
  ∧ (∀ h st0 (meanwhile : list (GlobalDndAction unit)),
       dispatch_all h st0
         (DropPending :: meanwhile ++ [DropCanceled (target_id targetC)])
       = dispatch_all h st0
         (DropPending :: meanwhile ++ [DropResolved (target_id targetC)])).
Proof.
  split; [reflexivity|]. split; [reflexivity|].
  split; [reflexivity|]. split; [reflexivity|].
  apply (rejected_drop_same_state_as_resolved
           (registry_after [Mount nodeC]) (registry_after [Mount nodeC_accepting])
           draggingA targetC (handleDrop nodeC) (handleDrop nodeC_accepting));
    reflexivity.
Defined.

(** A badge without hidden entities: two entities dragged, both shown (the default
    maximum is 5), and the badge is there all the same. *)
Lemma overlay_badge_with_all_entities_shown :
  let out := DndOverlayContent true None [entA; entB] id in
  rendered_visuals out = ["grid-A"; "grid-B"]
  ∧ length (rendered_visuals out) = length [entA; entB]
  ∧ badge_shown out = Some 2.
Proof. simpl. split; [|split]; reflexivity. Qed.

(** The converse fails too: with a maximum of 0 nothing is shown, so
    more entities are dragged than shown, and there is no badge. *)
Example overlay_no_badge_with_nothing_shown :
  let out := DndOverlayContent true (Some 0%Z) [entA; entB] id in
  rendered_visuals out = [] ∧ badge_shown out = None.
Proof. simpl. split; reflexivity. Qed.

(** A negative maximum counts from the end of the array. *)
Example overlay_negative_maximum :
  rendered_visuals (DndOverlayContent true (Some (-1)%Z) [entA; entB; entC] id)
    = ["grid-A"; "grid-B"].
Proof. reflexivity. Qed.

(** Three entities and a maximum of 2: two shown, and the badge. *)
Lemma overlay_render_contract_max_2 :
  (0 ≤ default 5%Z (Some 2%Z))%Z
  ∧ rendered_visuals (DndOverlayContent true (Some 2%Z) [entA; entB; entC] id)
    = id <$> take (Z.to_nat (default 5%Z (Some 2%Z))) [entA; entB; entC]
  ∧ length (rendered_visuals
              (DndOverlayContent true (Some 2%Z) [entA; entB; entC] id))
    ≤ Z.to_nat (default 5%Z (Some 2%Z))
  ∧ badge_shown (DndOverlayContent true (Some 2%Z) [entA; entB; entC] id)
    = (if true && Nat.ltb 1 (length [entA; entB; entC])
          && (0 <? default 5%Z (Some 2%Z))%Z
       then Some (length [entA; entB; entC]) else None).
Proof.
  assert (Hmax : (0 ≤ default 5%Z (Some 2%Z))%Z) by (simpl; lia).
  split; [exact Hmax|].
  exact (overlay_render_contract true (Some 2%Z) [entA; entB; entC] id Hmax).
Defined.

(** * Further properties of the reducer *)

Section ReducerInvariants.
Context {T : Type}.
Implicit Types (h : Store T) (st : GlobalDndState T) (e : Entity T).
Implicit Types (a : GlobalDndAction T) (acts : list (GlobalDndAction T)).

(** Whenever the filter returns, it returns the whole array. *)
Lemma filter_dropping_Normal (node : string) (drops kept : list (DragState T)) :
  filter_dropping node drops = Normal kept →
  kept = drops ∧ Forall holds_map drops.
Proof.
  revert kept. induction drops as [|d drops IH]; intros kept; simpl.
  - intros [= <-]. by split.
  - unfold holds_map. destruct (snap_over d) as [|l] eqn:Hd; simpl; [done|].
    destruct (filter_dropping node drops) as [kept'|]; [|done].
    destruct (IH kept' eq_refl) as [-> Hall].
    intros [= <-]. split; [done|].
    constructor; [by rewrite Hd | done].
Qed.

Lemma reducer_dropping h st a h' st' :
  dndStateReducer h st a = (h', Normal st') →
  dropping st' =
    dropping st ++
      (if is_DropPending a
       then [ {| snap_dragging := dragging st; snap_over := over st |} ]
       else []).
Proof.
  destruct a; simpl; try (intros [= <- <-]; simpl; by rewrite ?app_nil_r).
  - destruct (over st); [done|]. intros [= <- <-]. simpl. by rewrite app_nil_r.
  - destruct (over st), payload; try done.
    intros [= <- <-]. simpl. by rewrite app_nil_r.
  - by destruct (over st).
  - destruct (filter_dropping payload_id (dropping st)) as [kept|] eqn:Hf; [|done].
    intros [= <- <-]. simpl. rewrite app_nil_r.
    by destruct (filter_dropping_Normal _ _ _ Hf).
  - destruct (filter_dropping payload_id (dropping st)) as [kept|] eqn:Hf; [|done].
    intros [= <- <-]. simpl. rewrite app_nil_r.
    by destruct (filter_dropping_Normal _ _ _ Hf).
Qed.

(** X1.  No run of actions ever takes a snapshot out of [dropping]:
    whenever the run ends without throwing, the old [dropping] is a
    prefix of the new one, and the new one is longer by exactly the
    number of [drop-pending] actions in the run - whatever
    [drop-resolved] and [drop-canceled] actions the run holds. *)
Theorem dropping_never_shrinks acts : ∀ h st h' st',
  dispatch_all h st acts = (h', Normal st') →
  dropping st `prefix_of` dropping st'
  ∧ length (dropping st') =
      length (dropping st) + length (filter (fun a => is_DropPending a = true) acts).
Proof.
  induction acts as [|a acts IH]; intros h st h' st'.
  - simpl. intros [= <- <-]. split; [done | lia].
  - cbn [dispatch_all].
    destruct (dndStateReducer h st a) as [h1 [st1|]] eqn:Hstep; [|done].
    intros Hrun. destruct (IH _ _ _ _ Hrun) as [Hpre Hlen].
    pose proof (reducer_dropping _ _ _ _ _ Hstep) as Hd.
    split.
    + etrans; [|exact Hpre]. rewrite Hd. by apply prefix_app_r.
    + rewrite Hlen, Hd, length_app, filter_cons.
      destruct (is_DropPending a) eqn:Ha.
      * rewrite decide_True by done. simpl. lia.
      * rewrite decide_False by done. simpl. lia.
Qed.

Lemma reducer_over_null h st a h' st' :
  over st = OverNull →
  dndStateReducer h st a = (h', Normal st') →
  over st' = OverNull ∧ h' = h ∧ calls_over a = false.
Proof.
  intros Hnull. destruct a; simpl; rewrite ?Hnull;
    try done; try (by intros [= <- <-]).
  - destruct (filter_dropping payload_id (dropping st)); [|done].
    by intros [= <- <-].
  - destruct (filter_dropping payload_id (dropping st)); [|done].
    by intros [= <- <-].
Qed.

(** X2.  Once [over] is [null] (that is, from the first [drop-pending]
    on) it stays [null]: a run from such a state that ends without
    throwing holds no [drag-over], [drag-leave] or [drag-leave-resolved],
    ends with [over] still [null], and has left every map in the store
    as it was.  Put the other way: from then on each of those three
    actions throws. *)
Theorem over_null_is_absorbing acts : ∀ h st h' st',
  over st = OverNull →
  dispatch_all h st acts = (h', Normal st') →
  over st' = OverNull ∧ h' = h ∧ Forall (fun a => calls_over a = false) acts.
Proof.
  induction acts as [|a acts IH]; intros h st h' st' Hnull.
  - simpl. by intros [= <- <-].
  - cbn [dispatch_all].
    destruct (dndStateReducer h st a) as [h1 [st1|]] eqn:Hstep; [|done].
    destruct (reducer_over_null _ _ _ _ _ Hnull Hstep) as (Hnull1 & -> & Ha).
    intros Hrun. destruct (IH _ _ _ _ Hnull1 Hrun) as (? & ? & ?).
    split_and!; [done | done | by constructor].
Qed.

(** X3.  The reducer writes to no map but the one the state's [over]
    refers to: every other map of the store (those of snapshots and of
    earlier states) has the same entries afterwards, and no map is ever
    dropped from the store. *)
Theorem reducer_writes_own_map_only h st a (l' : nat) :
  over st ≠ OverMap l' →
  l' < length h →
  deref (fst (dndStateReducer h st a)) l' = deref h l'
  ∧ length h ≤ length (fst (dndStateReducer h st a)).
Proof.
  intros Hne Hl'.
  assert (Hw : ∀ l m, OverMap l ≠ OverMap l' →
             deref (<[l:=m]> h ++ [m]) l' = deref h l'
             ∧ length h ≤ length (<[l:=m]> h ++ [m])).
  { intros l m Hl. split.
    - rewrite deref_app_lt by (by rewrite length_insert).
      unfold deref. apply list_lookup_total_insert_ne. congruence.
    - rewrite length_app, length_insert. lia. }
  destruct a; simpl; try done.
  - destruct (over st) as [|l] eqn:Hov; [done|]. simpl. by apply Hw.
  - destruct (over st) as [|l] eqn:Hov, payload as [p|]; try done.
    simpl. by apply Hw.
  - destruct (over st) as [|l] eqn:Hov; [done|]. simpl. split.
    + unfold deref. apply list_lookup_total_insert_ne. congruence.
    + by rewrite length_insert.
  - by destruct (filter_dropping payload_id (dropping st)).
  - by destruct (filter_dropping payload_id (dropping st)).
Qed.

(** X4.  After [drag-over] the state returned refers to a map object
    created by the call, and the map of the state passed in holds the
    very same entries as that new one: the two states cannot be told
    apart by what their [over] maps contain. *)
Theorem drag_over_old_and_new_alike h st l e :
  over st = OverMap l →
  l < length h →
  ∃ h' st',
    dndStateReducer h st (DragOver e) = (h', Normal st')
    ∧ over st' = OverMap (length h)
    ∧ length h' = S (length h)
    ∧ deref h' l = deref h' (length h)
    ∧ deref h' (length h) = <[Some (id e) := over_entry e]> (deref h l).
Proof.
  intros Hov Hl. rewrite (reducer_drag_over _ _ _ _ Hov).
  eexists _, _. split; [reflexivity|]. simpl.
  set (m := <[Some (id e) := over_entry e]> (deref h l)).
  assert (Hnew : deref (<[l:=m]> h ++ [m]) (length h) = m).
  { unfold deref. apply list_lookup_total_correct.
    rewrite lookup_app_r by (rewrite length_insert; lia).
    by rewrite length_insert, Nat.sub_diag. }
  split_and!; [done | | | done].
  - rewrite length_app, length_insert. simpl. lia.
  - rewrite Hnew, deref_app_lt by (by rewrite length_insert).
    by apply deref_insert_eq.
Qed.

End ReducerInvariants.

Section ReducerRuns.
Context {T : Type}.
Implicit Types (h : Store T) (st : GlobalDndState T) (e : Entity T).

(** X6.  A whole gesture - [drag-start] with [payload], [drag-over] of
    [e], [drop-pending], and then [drop-resolved] (or [drop-canceled])
    with the id of [e] - ends with [dragging] empty, [over] [null], and
    [dropping] one snapshot longer: the snapshot holds [payload] and a
    map with the entry of [e], and the resolving action has not taken it
    out. *)
Theorem gesture_leaves_its_snapshot h st l (payload : list (Entity T)) e :
  over st = OverMap l →
  Forall holds_map (dropping st) →
  ∃ h',
    dispatch_all h st
      [DragStart payload; DragOver e; DropPending; DropResolved (id e)]
    = (h', Normal {| dragging := [];
                     over := OverNull;
                     dropping := dropping st ++
                       [ {| snap_dragging := payload;
                            snap_over := OverMap (length h) |} ] |})
    ∧ dispatch_all h st
        [DragStart payload; DragOver e; DropPending; DropCanceled (id e)]
      = dispatch_all h st
        [DragStart payload; DragOver e; DropPending; DropResolved (id e)]
    ∧ deref h' (length h) = <[Some (id e) := over_entry e]> (deref h l).
Proof.
  intros Hov Hmaps.
  assert (Hall : Forall (fun d : DragState T => snap_over d ≠ OverNull)
            (dropping st ++
               [ {| snap_dragging := payload; snap_over := OverMap (length h) |} ])).
  { apply Forall_app. split; [exact Hmaps|]. by repeat constructor. }
  eexists. cbn [dispatch_all]. unfold dndStateReducer at 1. cbn [over dragging dropping].
  rewrite (reducer_drag_over h _ l e) by done. cbn [over dragging dropping].
  unfold dndStateReducer at 1. cbn [over dragging dropping].
  unfold dndStateReducer. cbn [over dragging dropping].
  rewrite (filter_dropping_keeps_maps _ _ Hall).
  split_and!; [reflexivity | reflexivity |].
  unfold deref. apply list_lookup_total_correct.
  rewrite lookup_app_r by (rewrite length_insert; lia).
  by rewrite length_insert, Nat.sub_diag.
Qed.

(** X7.  A drag that starts from a state with nothing dragged and is
    canceled gives back that very state, and touches no map. *)
Theorem canceled_drag_round_trip h st (payload : list (Entity T)) :
  dragging st = [] →
  dispatch_all h st [DragStart payload; DragCanceled] = (h, Normal st).
Proof. intros Hd. destruct st; simpl in *. by subst. Qed.

(** X8.  [drag-leave] for a key the [over] map does not hold does not
    fail and is no no-op: it adds an entry under that key, with status
    ["leave"] and no entity, so the map grows by one.  The key
    [undefined] of the action the provider dispatches is such a key the
    first time. *)
Theorem drag_leave_missing_key_adds_entry h st l (p : LeavePayload) :
  over st = OverMap l →
  deref h l !! leave_id p = None →
  ∃ h' st' m,
    dndStateReducer h st (DragLeave (Some p)) = (h', Normal st')
    ∧ over_entries h' st' = Some m
    ∧ m = <[leave_id p := {| status := StatusLeave; entity := None |}]> (deref h l)
    ∧ size m = S (size (deref h l)).
Proof.
  intros Hov Hnone. unfold dndStateReducer. rewrite Hov, Hnone. simpl.
  eexists _, _, _. split; [reflexivity|].
  unfold over_entries. simpl. rewrite length_insert.
  set (m := <[leave_id p := _]> (deref h l)).
  pose proof (deref_new_Map (<[l:=m]> h) m) as Hd.
  unfold new_Map in Hd; simpl in Hd. rewrite length_insert in Hd.
  rewrite Hd. split_and!; [done | done |].
  by apply map_size_insert_None.
Qed.

(** X9.  A second [drag-leave] with the same payload changes no entry:
    the entries after two are the entries after one. *)
Theorem drag_leave_twice_is_once h st l (p : LeavePayload) :
  over st = OverMap l →
  ∃ h1 st1 h2 st2,
    dndStateReducer h st (DragLeave (Some p)) = (h1, Normal st1)
    ∧ dndStateReducer h1 st1 (DragLeave (Some p)) = (h2, Normal st2)
    ∧ over_entries h2 st2 = over_entries h1 st1.
Proof.
  intros Hov. unfold dndStateReducer at 1. rewrite Hov. simpl.
  set (m := <[leave_id p := _]> (deref h l)).
  assert (Hnew : deref (<[l:=m]> h ++ [m]) (length (<[l:=m]> h)) = m).
  { pose proof (deref_new_Map (<[l:=m]> h) m) as Hd. exact Hd. }
  eexists _, _, _, _. split; [reflexivity|].
  unfold dndStateReducer. simpl. split; [reflexivity|].
  unfold over_entries. simpl. f_equal.
  rewrite Hnew.
  set (m2 := <[leave_id p := _]> m).
  pose proof (deref_new_Map (<[length (<[l:=m]> h) := m2]> (<[l:=m]> h ++ [m])) m2) as Hd2.
  unfold new_Map in Hd2; simpl in Hd2. rewrite Hd2.
  unfold m2, m. rewrite lookup_insert_eq. simpl.
  by rewrite insert_insert_eq.
Qed.
End ReducerRuns.

(** * The status a node derives *)

Section NodeStatus.
Context {T : Type}.
Implicit Types (h : Store T) (st ctx : GlobalDndState T) (e : Entity T).

Lemma find_pending_maps (node : string) (drops : list (DragState T)) :
  Forall holds_map drops → find_pending node drops = Normal None.
Proof.
  induction 1 as [|d drops Hd _ IH]; [done|].
  simpl. unfold holds_map in Hd. by destruct (snap_over d).
Qed.

Lemma find_pending_null (node : string) (drops : list (DragState T)) :
  Exists (fun d => snap_over d = OverNull) drops →
  find_pending node drops = TypeError.
Proof.
  induction drops as [|d drops IH]; intros Hex.
  - by apply Exists_nil in Hex.
  - simpl. destruct (snap_over d) as [|l] eqn:Hd; [done|]. simpl.
    apply Exists_cons in Hex as [Hnull|Hex]; [congruence | by apply IH].
Qed.

Lemma holds_map_or_null (drops : list (DragState T)) :
  Forall holds_map drops ∨ Exists (fun d => snap_over d = OverNull) drops.
Proof.
  induction drops as [|d drops [IH|IH]].
  - by left.
  - destruct (snap_over d) as [|l] eqn:Hd.
    + right. by left.
    + left. constructor; [|done]. unfold holds_map. by rewrite Hd.
  - right. by right.
Qed.

Lemma is_dragging_spec (node : string) (es : list (Entity T)) :
  existsb (fun entity => String.eqb (id entity) node) es = true ↔
  node ∈ (id <$> es).
Proof.
  rewrite existsb_exists, list_elem_of_fmap. split.
  - intros (x & Hx & Heq). apply String.eqb_eq in Heq.
    exists x. split; [done | by apply list_elem_of_In].
  - intros (x & -> & Hx). exists x.
    split; [by apply list_elem_of_In | by apply String.eqb_eq].
Qed.

(** X10.  A status that is computed at all is ["over"], ["dragging"] or
    ["idle"], never ["over-pending"]: ["over"], with the live dragging
    array, exactly for a key of the [over] map, also when the node is
    itself being dragged; ["dragging"] for a dragged node that is no
    key; ["idle"], with the empty array, otherwise - also for the drop
    target of a snapshot in flight. *)
Theorem status_is_over_dragging_or_idle h ctx (node : string)
    (s : DragStatus) (d : list (Entity T)) :
  derive_status h ctx node = Normal (s, d) →
  ∃ l, over ctx = OverMap l
    ∧ ((s = Over ∧ d = dragging ctx ∧ is_Some (deref h l !! Some node))
       ∨ (s = Dragging ∧ d = dragging ctx
          ∧ deref h l !! Some node = None
          ∧ node ∈ (id <$> dragging ctx))
       ∨ (s = Idle ∧ d = []
          ∧ deref h l !! Some node = None
          ∧ (node ∉ (id <$> dragging ctx))
          ∧ Forall holds_map (dropping ctx))).
Proof.
  unfold derive_status. destruct (over ctx) as [|l]; [done|].
  intros Hs. exists l. split; [done|].
  destruct (deref h l !! Some node) as [entry|] eqn:Hkey.
  { injection Hs as <- <-. left. split_and!; [done | done | by eexists]. }
  destruct (existsb _ (dragging ctx)) eqn:Hdrag.
  { injection Hs as <- <-. right. left.
    split_and!; [done | done | done | by apply is_dragging_spec]. }
  destruct (holds_map_or_null (dropping ctx)) as [Hmaps|Hnull].
  - rewrite (find_pending_maps _ _ Hmaps) in Hs. injection Hs as <- <-.
    right. right. split_and!; [done | done | done | | done].
    intros Hin. apply is_dragging_spec in Hin. congruence.
  - by rewrite (find_pending_null _ _ Hnull) in Hs.
Qed.

(** X11.  The status computation throws exactly when [over] is [null],
    or when the node is neither a key of [over] nor dragged and some
    snapshot was taken while [over] was [null]. *)
Theorem status_throws_iff h ctx (node : string) :
  derive_status h ctx node = TypeError ↔
  over ctx = OverNull
  ∨ ∃ l, over ctx = OverMap l
      ∧ deref h l !! Some node = None
      ∧ (node ∉ (id <$> dragging ctx))
      ∧ Exists (fun d => snap_over d = OverNull) (dropping ctx).
Proof.
  unfold derive_status. split.
  - destruct (over ctx) as [|l]; [by left|]. intros Hs. right. exists l.
    destruct (deref h l !! Some node) as [entry|] eqn:Hkey; [done|].
    destruct (existsb _ (dragging ctx)) eqn:Hdrag; [done|].
    destruct (holds_map_or_null (dropping ctx)) as [Hmaps|Hnull].
    + by rewrite (find_pending_maps _ _ Hmaps) in Hs.
    + split_and!; [done | done | | done].
      intros Hin. apply is_dragging_spec in Hin. congruence.
  - intros [-> | (l & -> & -> & Hnot & Hnull)]; [done|].
    destruct (existsb _ (dragging ctx)) eqn:Hdrag.
    + destruct Hnot. by apply is_dragging_spec.
    + by rewrite (find_pending_null _ _ Hnull).
Qed.

(** X12.  A drop on a target that has a drop callback, from a state
    whose [over] is a map: whether the callback fulfils or rejects, the
    actions [onDragEnd] dispatches end in a state with nothing dragged,
    one snapshot more, and [over] [null] - a state in which the status
    computation of every node throws. *)
Theorem handled_drop_breaks_every_status (callbacks : Registry T) h st l
    (target : OverTarget T) (fns_onDrop : GlobalDndState T → Outcome) :
  hasDropCallback callbacks (target_id target) = Some fns_onDrop →
  over st = OverMap l →
  Forall holds_map (dropping st) →
  ∃ st',
    dispatch_all h st (dispatched (onDragEnd callbacks st (Some target)))
      = (h, Normal st')
    ∧ dragging st' = []
    ∧ dropping st' = dropping st ++
        [ {| snap_dragging := dragging st; snap_over := OverMap l |} ]
    ∧ ∀ node : string, derive_status h st' node = TypeError.
Proof.
  intros Hcb Hov Hmaps.
  assert (Hall : Forall (fun d : DragState T => snap_over d ≠ OverNull)
            (dropping st ++
               [ {| snap_dragging := dragging st; snap_over := OverMap l |} ])).
  { apply Forall_app. split; [exact Hmaps|]. by repeat constructor. }
  unfold onDragEnd. rewrite Hcb.
  destruct (fns_onDrop st); simpl; rewrite Hov;
    rewrite (filter_dropping_keeps_maps _ _ Hall);
    eexists; (split; [reflexivity|]); simpl; by split_and!.
Qed.
End NodeStatus.

(** * Further properties of the provider's handlers *)

Section ProviderRuns.
Context {T : Type}.
Implicit Types (h : Store T) (st : GlobalDndState T).
Implicit Types (callbacks : Registry T) (ops : list (RegistryOp T)).

Lemma truthy_nonempty (s : string) : s ≠ "" → truthy (Some s) = true.
Proof.
  intros Hs. simpl. destruct (String.eqb_spec s ""); [done | done].
Qed.

Lemma self_target_spec (target_id : string) (es : list (Entity T)) :
  existsb (fun e => bool_decide (Some (id e) = Some target_id)) es = true ↔
  target_id ∈ (id <$> es).
Proof.
  rewrite existsb_exists, list_elem_of_fmap. split.
  - intros (x & Hx & Heq). apply bool_decide_eq_true in Heq as [= <-].
    exists x. split; [done | by apply list_elem_of_In].
  - intros (x & -> & Hx). exists x.
    split; [by apply list_elem_of_In | by apply bool_decide_eq_true].
Qed.


(** X14.  Hovering a target whose [enableDrop] refuses: [onDragOver]
    dispatches [drag-leave] without a payload, and reducing that action
    throws in every state - the refusal does not leave the state as it
    was, it ends the reducer with a [TypeError]. *)
Theorem refused_hover_throws callbacks st (target : OverTarget T)
    (reg : Registration T) (f : GlobalDndState T → bool) :
  target_id target ≠ "" →
  target_id target ∉ (id <$> dragging st) →
  callbacks !! Some (target_id target) = Some reg →
  enableDrop reg = Some f →
  f st = false →
  onDragOver callbacks st (Some target) = [ConsoleLog; Dispatch (DragLeave None)]
  ∧ ∀ h st0,
      dispatch_all h st0 (dispatched (onDragOver callbacks st (Some target)))
        = (h, TypeError).
Proof.
  intros Hid Hself Hreg Hen Hf.
  assert (Htrace : onDragOver callbacks st (Some target)
            = [ConsoleLog; Dispatch (DragLeave None)]).
  { unfold onDragOver. cbn [fmap option_fmap option_map].
    rewrite (truthy_nonempty _ Hid). cbn [negb].
    destruct (existsb _ (dragging st)) eqn:Hex.
    { destruct Hself. by apply self_target_spec. }
    rewrite Hreg. simpl. by rewrite Hen, Hf. }
  split; [done|]. intros h st0. rewrite Htrace. simpl.
  by destruct (over st0).
Qed.

(** X15.  A target that is one of the dragged entities is ignored:
    [onDragOver] logs and dispatches nothing, whatever the registry
    holds for it. *)
Theorem dragged_target_is_ignored callbacks st (target : OverTarget T) :
  target_id target ≠ "" →
  target_id target ∈ (id <$> dragging st) →
  onDragOver callbacks st (Some target) = [ConsoleLog].
Proof.
  intros Hid Hself. unfold onDragOver. cbn [fmap option_fmap option_map].
  rewrite (truthy_nonempty _ Hid). cbn [negb].
  apply self_target_spec in Hself. by rewrite Hself.
Qed.

(** X16.  When the pointer leaves every target, the statuses stay: after
    the action [onDragOver] dispatches then, each node derives the status
    and the dragging array it derived before - a node that was ["over"]
    still is. *)
Theorem no_target_keeps_every_status ops h st l (node : string) :
  over st = OverMap l →
  ∃ h' st',
    dispatch_all h st (dispatched (onDragOver (registry_after ops) st None))
      = (h', Normal st')
    ∧ dragging st' = dragging st
    ∧ dropping st' = dropping st
    ∧ derive_status h' st' node = derive_status h st node.
Proof.
  intros Hov.
  pose proof (registry_after_undefined ops) as Hnone.
  unfold onDragOver, undefined in *. simpl. rewrite Hnone. simpl.
  rewrite Hov. simpl.
  eexists _, _. split_and!; [reflexivity | done | done |].
  unfold derive_status. simpl. rewrite Hov, length_insert.
  set (m := <[None := _]> (deref h l)).
  pose proof (deref_new_Map (<[l:=m]> h) m) as Hd.
  unfold new_Map in Hd; simpl in Hd. rewrite length_insert in Hd.
  rewrite Hd. unfold m. by rewrite lookup_insert_ne.
Qed.

(** X17.  A drop outside every target: [onDragEnd] dispatches
    [drag-canceled]; nothing is dragged afterwards, [over] and
    [dropping] are as before, no map was touched, and the provider
    mounts no overlay. *)
Theorem drop_outside_hides_overlay {V} callbacks h st (hasValue : bool)
    (renderEntity : Entity T → V) :
  ∃ st',
    dispatch_all h st (dispatched (onDragEnd callbacks st None)) = (h, Normal st')
    ∧ dragging st' = []
    ∧ over st' = over st
    ∧ dropping st' = dropping st
    ∧ provider_overlay st' hasValue renderEntity = None.
Proof. eexists. split; [reflexivity|]. by split_and!. Qed.


(** X19.  A drop on a node that has just been mounted always goes
    through [drop-pending], and ends in [drop-resolved] exactly when the
    node has an [onDrop] prop whose promise fulfils and a descendant has
    registered a drop function whose promise fulfils; in every other
    case - no [onDrop] prop, or no function registered - the error is
    logged and [drop-canceled] is dispatched. *)
Theorem drop_resolves_only_if_both_fulfil ops (props : DndNodeProps T) st
    (target : OverTarget T) :
  target_id target = node_id props →
  (onDragEnd (registry_after (ops ++ [Mount props])) st (Some target)
     = [Dispatch DropPending; Dispatch (DropResolved (node_id props))]
   ∨ onDragEnd (registry_after (ops ++ [Mount props])) st (Some target)
     = [Dispatch DropPending; ConsoleError;
        Dispatch (DropCanceled (node_id props))])
  ∧ (onDragEnd (registry_after (ops ++ [Mount props])) st (Some target)
       = [Dispatch DropPending; Dispatch (DropResolved (node_id props))]
     ↔ ∃ f, onDropProp props = Some f
          ∧ f st = Fulfilled
          ∧ onDropPromise props = Some Fulfilled).
Proof.
  intros Hid.
  assert (Hcb : hasDropCallback (registry_after (ops ++ [Mount props]))
                  (target_id target) = Some (handleDrop props)).
  { unfold hasDropCallback. rewrite registry_after_snoc, Hid. simpl.
    unfold DndNode_register. by rewrite lookup_insert_eq. }
  unfold onDragEnd. rewrite Hcb, Hid. unfold handleDrop.
  destruct (onDropProp props) as [f|] eqn:Hf.
  - destruct (onDropPromise props) as [[|]|] eqn:Hp.
    + destruct (f st) eqn:Hfst; simpl.
      * split; [by left|]. split; [|done]. intros _. by exists f.
      * split; [by right|]. split; [done|].
        intros (f' & [= <-] & Hful & _). congruence.
    + assert (Promise_all [f st; Rejected] = Rejected) as ->
        by (unfold Promise_all; simpl; by destruct (f st)).
      split; [by right|]. split; [done|]. by intros (f' & _ & _ & [=]).
    + split; [by right|]. split; [done|]. by intros (f' & _ & _ & [=]).
  - split; [by right|]. split; [done|]. by intros (f' & [=] & _).
Qed.
End ProviderRuns.

(** * Further properties of the registry *)

Section RegistryRuns.
Context {T : Type}.
Implicit Types (callbacks : Registry T) (ops : list (RegistryOp T)).
Implicit Types (props : DndNodeProps T).

Lemma string_app_assoc (a b c : string) : (a +:+ b) +:+ c = a +:+ b +:+ c.
Proof.
  induction a as [|x a IH]; [done|].
  change (String x ((a +:+ b) +:+ c) = String x (a +:+ b +:+ c)).
  by rewrite IH.
Qed.

Lemma node_id_nonempty props : node_id props ≠ "".
Proof. unfold node_id. by destruct (namespaceProp props). Qed.

(** X20.  Mounting a node under an id the registry does not hold and
    unmounting it again gives back the registry as it was. *)
Theorem mount_unmount_round_trip callbacks props :
  callbacks !! Some (node_id props) = None →
  DndNode_unregister (DndNode_register callbacks props) props = callbacks.
Proof.
  intros Hnone. unfold DndNode_unregister, DndNode_register.
  by apply delete_insert_id.
Qed.

(** X21.  The cleanup deletes by id alone: when two nodes are mounted
    under one qualified id and the first unmounts, the registration of
    the second, still mounted, is gone, and a drop on it is resolved at
    once without its [onDrop] being called. *)
Theorem unmount_removes_twin_registration ops (p1 p2 : DndNodeProps T)
    (st : GlobalDndState T) (target : OverTarget T) :
  node_id p1 = node_id p2 →
  target_id target = node_id p2 →
  registry_after (ops ++ [Mount p1; Mount p2; Unmount p1]) !! Some (node_id p2)
    = None
  ∧ onDragEnd (registry_after (ops ++ [Mount p1; Mount p2; Unmount p1])) st
      (Some target)
    = [Dispatch (DropResolved (node_id p2))].
Proof.
  intros Hid Htarget.
  assert (Hnone : registry_after (ops ++ [Mount p1; Mount p2; Unmount p1])
                    !! Some (node_id p2) = None).
  { unfold registry_after. rewrite foldl_app. simpl.
    unfold DndNode_unregister. rewrite Hid. apply lookup_delete_eq. }
  split; [exact Hnone|].
  unfold onDragEnd, hasDropCallback. by rewrite Htarget, Hnone.
Qed.

(** X22.  The qualified id does not determine namespace and id: the
    hyphen that joins them may as well belong to either, so the node
    [b-c] of namespace [a] and the node [c] of namespace [a-b] get the
    same qualified id. *)
Theorem node_id_collision (p1 p2 : DndNodeProps T) (b : string) :
  idProp p1 = b +:+ "-" +:+ idProp p2 →
  namespaceProp p2 = namespaceProp p1 +:+ "-" +:+ b →
  node_id p1 = node_id p2.
Proof.
  intros Hid Hns. unfold node_id. rewrite Hid, Hns.
  by rewrite !string_app_assoc.
Qed.

(** X23.  Registering again under an id replaces the registration: of
    two mounts under one id only the later one counts, and the
    registrations under all other keys are as they were. *)
Theorem remount_replaces_registration callbacks (p1 p2 : DndNodeProps T) :
  node_id p1 = node_id p2 →
  DndNode_register (DndNode_register callbacks p1) p2
    = DndNode_register callbacks p2
  ∧ ∀ k : JsId, k ≠ Some (node_id p2) →
      DndNode_register (DndNode_register callbacks p1) p2 !! k = callbacks !! k.
Proof.
  intros Hid. unfold DndNode_register. rewrite Hid. split.
  - apply insert_insert_eq.
  - intros k Hk. by rewrite !lookup_insert_ne.
Qed.

(** X24.  Whatever nodes were mounted and unmounted, every registration
    the registry holds is the one written by a node that was mounted: its
    key is that node's qualified id - a non-empty string, never
    [undefined] - its [onDrop] is that node's [handleDrop] and its
    [enableDrop] that node's prop. *)
Theorem registry_holds_mounted_nodes_only ops (k : JsId) (reg : Registration T) :
  registry_after ops !! k = Some reg →
  ∃ props,
    Mount props ∈ ops
    ∧ k = Some (node_id props)
    ∧ truthy k = true
    ∧ onDrop reg = Some (handleDrop props)
    ∧ enableDrop reg = enableDropProp props.
Proof.
  revert k reg. induction ops as [|op ops IH] using rev_ind; intros k reg.
  - unfold registry_after. simpl. by rewrite lookup_empty.
  - rewrite registry_after_snoc.
    assert (Hold : registry_after ops !! k = Some reg →
              ∃ props, Mount props ∈ ops ++ [op] ∧ k = Some (node_id props)
                ∧ truthy k = true
                ∧ onDrop reg = Some (handleDrop props)
                ∧ enableDrop reg = enableDropProp props).
    { intros Hk. destruct (IH _ _ Hk) as (props & Hin & Hrest).
      exists props. split; [|done]. apply elem_of_app. by left. }
    destruct op as [props|props]; simpl.
    + unfold DndNode_register. rewrite lookup_insert.
      case_decide as Hkey; [|done].
      intros [= <-]. exists props. split_and!; try done.
      * apply elem_of_app. right. by left.
      * subst k. by apply truthy_nonempty, node_id_nonempty.
    + unfold DndNode_unregister. rewrite lookup_delete.
      case_decide; [done | done].
Qed.
End RegistryRuns.

(** * Further properties of the overlay *)

Section OverlayRuns.
Context {T V : Type}.
Implicit Types (entities : list (Entity T)) (renderEntity : Entity T → V).

Lemma rendered_visuals_shown maxEntityCount entities renderEntity :
  rendered_visuals (DndOverlayContent true maxEntityCount entities renderEntity)
    = renderEntity <$> slice0 entities (default 5%Z maxEntityCount).
Proof.
  rewrite DndOverlayContent_shown. unfold rendered_visuals. simpl.
  by apply visuals_of_imap.
Qed.

(** X25.  A negative maximum is no bound of zero: [slice] counts it from
    the end, so a maximum of [-k] shows all entities but the last [k]. *)
Theorem overlay_negative_maximum_hides_tail (n : Z) entities renderEntity :
  (n < 0)%Z →
  rendered_visuals (DndOverlayContent true (Some n) entities renderEntity)
    = renderEntity <$> take (length entities - Z.to_nat (- n)) entities.
Proof.
  intros Hn. rewrite rendered_visuals_shown. simpl. unfold slice0.
  destruct (Z.ltb_spec n 0) as [_|?]; [|lia].
  do 2 f_equal. lia.
Qed.

(** X26.  Whatever the maximum, negative ones included: the elements
    the overlay returns are numbered 0, 1, 2, ... in order, each shows
    one entity, and the entities shown are a prefix of the dragged ones,
    in their order. *)
Theorem overlay_indices_and_prefix (hasValue : bool) (maxEntityCount : option Z)
    entities renderEntity :
  let out := DndOverlayContent hasValue maxEntityCount entities renderEntity in
  pos_i <$> default [] out = seq 0 (length (rendered_visuals out))
  ∧ length (default [] out) = length (rendered_visuals out)
  ∧ rendered_visuals out `prefix_of` (renderEntity <$> entities).
Proof.
  destruct hasValue; [|simpl; split_and!; [done | done | apply prefix_nil]].
  cbv zeta. rewrite rendered_visuals_shown, DndOverlayContent_shown.
  cbn [default from_option Datatypes.id].
  rewrite length_fmap, length_imap. split_and!; [| done |].
  - rewrite fmap_imap.
    rewrite <- (list_fmap_id (seq 0 _)).
    rewrite <- (imap_seq_0 (slice0 entities (default 5%Z maxEntityCount)) Datatypes.id).
    by apply imap_ext.
  - unfold slice0. rewrite fmap_take. apply prefix_take.
Qed.

(** X27.  There is at most one badge: an element that carries one is the
    first, the badge shows the number of entities dragged (not the
    number shown), and more than one entity is dragged. *)
Theorem overlay_badge_only_on_first (hasValue : bool) (maxEntityCount : option Z)
    entities renderEntity (out : list (PositionedEntity V)) (i : nat)
    (p : PositionedEntity V) (b : nat) :
  DndOverlayContent hasValue maxEntityCount entities renderEntity = Some out →
  out !! i = Some p →
  pos_children p ≫= badge = Some b →
  i = 0 ∧ b = length entities ∧ 1 < length entities.
Proof.
  destruct hasValue; [|done].
  rewrite DndOverlayContent_shown. intros [= <-].
  rewrite list_lookup_imap.
  destruct (slice0 entities (default 5%Z maxEntityCount) !! i) as [x|]; [|done].
  simpl. intros [= <-]. simpl. unfold badge_at.
  destruct i as [|i]; [|done]. simpl.
  destruct (Nat.ltb_spec 1 (length entities)) as [Hlt|?]; [|done].
  by intros [= <-].
Qed.

(** X28.  The overlay the provider mounts: nothing before the pointer
    has moved; after that the first five dragged entities, and a badge
    with their total number as soon as two or more are dragged. *)
Theorem provider_overlay_shows_at_most_five (st : GlobalDndState T) renderEntity :
  provider_overlay st false renderEntity = None
  ∧ rendered_visuals (provider_overlay st true renderEntity)
    = renderEntity <$> take 5 (dragging st)
  ∧ badge_shown (provider_overlay st true renderEntity)
    = (if Nat.ltb 1 (length (dragging st))
       then Some (length (dragging st)) else None).
Proof.
  unfold provider_overlay, DndOverlay.
  destruct (dragging st) as [|x l] eqn:Hd; [done|].
  cbn [length Nat.ltb Nat.leb]. split_and!.
  - done.
  - rewrite rendered_visuals_shown. cbn [default].
    by rewrite slice0_nonneg by lia.
  - rewrite DndOverlayContent_shown. cbn [default].
    rewrite slice0_nonneg by lia. rewrite badge_shown_imap.
    change (Z.to_nat 5) with 5. done.
Qed.
End OverlayRuns.

(** * The further properties at sample inputs *)

(** A hover of [entC], a drop, and both resolving actions: one snapshot
    more, as one [drop-pending] was in the run. *)
Lemma dropping_never_shrinks_on_C :
  ∃ h' st',
    dispatch_all (initialStore unit) draggingA
      [DragOver entC; DropPending; DropResolved "grid-C"; DropCanceled "grid-C"]
      = (h', Normal st')
    ∧ dropping draggingA `prefix_of` dropping st'
    ∧ length (dropping st') =
        length (dropping draggingA) +
        length (filter (fun a : GlobalDndAction unit => is_DropPending a = true)
                  [DragOver entC; DropPending; DropResolved "grid-C";
                   DropCanceled "grid-C"]).
Proof.
  eexists _, _. split; [reflexivity|].
  eapply (dropping_never_shrinks
           [DragOver entC; DropPending; DropResolved "grid-C"; DropCanceled "grid-C"]
           (initialStore unit) draggingA).
  reflexivity.
Defined.

(** After the drop on C: a new drag starts, is canceled, and another drop
    is taken; [over] is [null] throughout. *)
Lemma over_null_after_drop_on_C :
  ∃ h' st',
    over droppedOnC = OverNull
    ∧ dispatch_all storeC droppedOnC [DragStart [entB]; DragCanceled; DropPending]
      = (h', Normal st')
    ∧ over st' = OverNull
    ∧ h' = storeC
    ∧ Forall (fun a : GlobalDndAction unit => calls_over a = false)
        [DragStart [entB]; DragCanceled; DropPending].
Proof.
  eexists _, _. split; [reflexivity|]. split; [reflexivity|].
  apply (over_null_is_absorbing [DragStart [entB]; DragCanceled; DropPending]
           storeC droppedOnC); reflexivity.
Defined.

(** [drag-over] on the state that holds the first of two maps leaves the
    second as it is. *)
Lemma drag_over_leaves_other_map :
  over (initialGlobalDndState unit) ≠ OverMap 1
  ∧ 1 < length storeTwo
  ∧ deref (fst (dndStateReducer storeTwo (initialGlobalDndState unit)
                  (DragOver entA))) 1 = deref storeTwo 1
  ∧ length storeTwo
    ≤ length (fst (dndStateReducer storeTwo (initialGlobalDndState unit)
                     (DragOver entA))).
Proof.
  assert (H1 : over (initialGlobalDndState unit) ≠ OverMap 1) by done.
  assert (H2 : 1 < length storeTwo) by (simpl; lia).
  split; [exact H1|]. split; [exact H2|].
  exact (reducer_writes_own_map_only storeTwo (initialGlobalDndState unit)
           (DragOver entA) 1 H1 H2).
Defined.

Lemma drag_over_B_old_and_new_alike :
  over draggingA = OverMap 0
  ∧ 0 < length storeC
  ∧ ∃ h' st',
      dndStateReducer storeC draggingA (DragOver entB) = (h', Normal st')
      ∧ over st' = OverMap (length storeC)
      ∧ length h' = S (length storeC)
      ∧ deref h' 0 = deref h' (length storeC)
      ∧ deref h' (length storeC)
        = <[Some (id entB) := over_entry entB]> (deref storeC 0).
Proof.
  assert (H2 : 0 < length storeC) by (simpl; lia).
  split; [reflexivity|]. split; [exact H2|].
  exact (drag_over_old_and_new_alike storeC draggingA 0 entB eq_refl H2).
Defined.


Lemma gesture_A_onto_C :
  over (initialGlobalDndState unit) = OverMap 0
  ∧ Forall holds_map (dropping (initialGlobalDndState unit))
  ∧ ∃ h',
      dispatch_all (initialStore unit) (initialGlobalDndState unit)
        [DragStart [entA]; DragOver entC; DropPending; DropResolved (id entC)]
      = (h', Normal {| dragging := [];
                       over := OverNull;
                       dropping := dropping (initialGlobalDndState unit) ++
                         [ {| snap_dragging := [entA];
                              snap_over := OverMap (length (initialStore unit)) |} ] |})
      ∧ dispatch_all (initialStore unit) (initialGlobalDndState unit)
          [DragStart [entA]; DragOver entC; DropPending; DropCanceled (id entC)]
        = dispatch_all (initialStore unit) (initialGlobalDndState unit)
          [DragStart [entA]; DragOver entC; DropPending; DropResolved (id entC)]
      ∧ deref h' (length (initialStore unit))
        = <[Some (id entC) := over_entry entC]> (deref (initialStore unit) 0).
Proof.
  assert (H2 : Forall holds_map (dropping (initialGlobalDndState unit)))
    by constructor.
  split; [reflexivity|]. split; [exact H2|].
  exact (gesture_leaves_its_snapshot (initialStore unit)
           (initialGlobalDndState unit) 0 [entA] entC eq_refl H2).
Defined.

Lemma canceled_drag_of_A :
  dragging (initialGlobalDndState unit) = []
  ∧ dispatch_all (initialStore unit) (initialGlobalDndState unit)
      [DragStart [entA]; DragCanceled]
    = (initialStore unit, Normal (initialGlobalDndState unit)).
Proof.
  split; [reflexivity|].
  exact (canceled_drag_round_trip (initialStore unit)
           (initialGlobalDndState unit) [entA] eq_refl).
Defined.

Lemma drag_leave_adds_undefined_key :
  over draggingA = OverMap 0
  ∧ deref storeC 0 !! leave_id immediate_leave = None
  ∧ ∃ h' st' m,
      dndStateReducer storeC draggingA (DragLeave (Some immediate_leave))
        = (h', Normal st')
      ∧ over_entries h' st' = Some m
      ∧ m = <[leave_id immediate_leave :=
                {| status := StatusLeave; entity := None |}]> (deref storeC 0)
      ∧ size m = S (size (deref storeC 0)).
Proof.
  split; [reflexivity|]. split; [reflexivity|].
  exact (drag_leave_missing_key_adds_entry storeC draggingA 0 immediate_leave
           eq_refl eq_refl).
Defined.

Lemma drag_leave_twice_on_C :
  over draggingA = OverMap 0
  ∧ ∃ h1 st1 h2 st2,
      dndStateReducer storeC draggingA (DragLeave (Some immediate_leave))
        = (h1, Normal st1)
      ∧ dndStateReducer h1 st1 (DragLeave (Some immediate_leave))
        = (h2, Normal st2)
      ∧ over_entries h2 st2 = over_entries h1 st1.
Proof.
  split; [reflexivity|].
  exact (drag_leave_twice_is_once storeC draggingA 0 immediate_leave eq_refl).
Defined.

(** The node hovered by [entA] is ["over"]. *)
Lemma status_of_hovered_C :
  derive_status storeC draggingA "grid-C" = Normal (Over, [entA])
  ∧ ∃ l, over draggingA = OverMap l
      ∧ ((Over = Over ∧ [entA] = dragging draggingA
          ∧ is_Some (deref storeC l !! Some "grid-C"))
         ∨ (Over = Dragging ∧ [entA] = dragging draggingA
            ∧ deref storeC l !! Some "grid-C" = None
            ∧ "grid-C" ∈ (id <$> dragging draggingA))
         ∨ (Over = Idle ∧ [entA] = []
            ∧ deref storeC l !! Some "grid-C" = None
            ∧ ("grid-C" ∉ (id <$> dragging draggingA))
            ∧ Forall holds_map (dropping draggingA))).
Proof.
  split; [reflexivity|].
  exact (status_is_over_dragging_or_idle storeC draggingA "grid-C" Over [entA]
           eq_refl).
Defined.

(** The drop target of the snapshot in flight is not ["over-pending"]:
    the computation of its status throws, [over] being [null]. *)
Example status_of_pending_C :
  derive_status storeC droppedOnC "grid-C" = TypeError.
Proof. reflexivity. Qed.

Lemma drop_of_A_on_C_breaks_every_status :
  hasDropCallback (registry_after [Mount nodeC]) (target_id targetC)
    = Some (handleDrop nodeC)
  ∧ over draggingA = OverMap 0
  ∧ Forall holds_map (dropping draggingA)
  ∧ ∃ st',
      dispatch_all storeC draggingA
        (dispatched (onDragEnd (registry_after [Mount nodeC]) draggingA
                       (Some targetC)))
        = (storeC, Normal st')
      ∧ dragging st' = []
      ∧ dropping st' = dropping draggingA ++
          [ {| snap_dragging := dragging draggingA; snap_over := OverMap 0 |} ]
      ∧ ∀ node : string, derive_status storeC st' node = TypeError.
Proof.
  assert (H3 : Forall holds_map (dropping draggingA)) by constructor.
  split; [reflexivity|]. split; [reflexivity|]. split; [exact H3|].
  exact (handled_drop_breaks_every_status (registry_after [Mount nodeC])
           storeC draggingA 0 targetC (handleDrop nodeC) eq_refl eq_refl H3).
Defined.


Lemma refused_hover_of_Ab_c_throws :
  target_id targetAb_c ≠ ""
  ∧ (target_id targetAb_c ∉ (id <$> dragging draggingA))
  ∧ enableDrop <$> registry_after [Mount nodeAb_c] !! Some (target_id targetAb_c)
    = Some (enableDropProp nodeAb_c)
  ∧ onDragOver (registry_after [Mount nodeAb_c]) draggingA (Some targetAb_c)
    = [ConsoleLog; Dispatch (DragLeave None)]
  ∧ ∀ h st0,
      dispatch_all h st0
        (dispatched (onDragOver (registry_after [Mount nodeAb_c]) draggingA
                       (Some targetAb_c)))
        = (h, TypeError).
Proof.
  assert (H1 : target_id targetAb_c ≠ "") by done.
  assert (H2 : target_id targetAb_c ∉ (id <$> dragging draggingA)).
  { simpl. intros Hin. apply list_elem_of_singleton in Hin. discriminate. }
  split; [exact H1|]. split; [exact H2|]. split; [reflexivity|].
  exact (refused_hover_throws (registry_after [Mount nodeAb_c]) draggingA
           targetAb_c
           {| enableDrop := enableDropProp nodeAb_c;
              onLeave := None;
              onDrop := Some (handleDrop nodeAb_c) |}
           (fun _ => false) H1 H2 eq_refl eq_refl eq_refl).
Defined.

Lemma hover_of_dragged_A_is_ignored :
  target_id targetA ≠ ""
  ∧ target_id targetA ∈ (id <$> dragging draggingA)
  ∧ onDragOver (registry_after [Mount nodeC]) draggingA (Some targetA)
    = [ConsoleLog].
Proof.
  assert (H1 : target_id targetA ≠ "") by done.
  assert (H2 : target_id targetA ∈ (id <$> dragging draggingA))
    by (simpl; by apply list_elem_of_singleton).
  split; [exact H1|]. split; [exact H2|].
  exact (dragged_target_is_ignored (registry_after [Mount nodeC]) draggingA
           targetA H1 H2).
Defined.

Lemma leaving_C_keeps_it_over :
  over draggingA = OverMap 0
  ∧ derive_status storeC draggingA "grid-C" = Normal (Over, [entA])
  ∧ ∃ h' st',
      dispatch_all storeC draggingA
        (dispatched (onDragOver (registry_after [Mount nodeC]) draggingA None))
        = (h', Normal st')
      ∧ dragging st' = dragging draggingA
      ∧ dropping st' = dropping draggingA
      ∧ derive_status h' st' "grid-C" = derive_status storeC draggingA "grid-C".
Proof.
  split; [reflexivity|]. split; [reflexivity|].
  exact (no_target_keeps_every_status [Mount nodeC] storeC draggingA 0 "grid-C"
           eq_refl).
Defined.


Lemma drop_on_accepting_C_resolves :
  target_id targetC = node_id nodeC_accepting
  ∧ (onDragEnd (registry_after ([] ++ [Mount nodeC_accepting])) draggingA
       (Some targetC)
       = [Dispatch DropPending; Dispatch (DropResolved (node_id nodeC_accepting))]
     ∨ onDragEnd (registry_after ([] ++ [Mount nodeC_accepting])) draggingA
         (Some targetC)
       = [Dispatch DropPending; ConsoleError;
          Dispatch (DropCanceled (node_id nodeC_accepting))])
  ∧ (onDragEnd (registry_after ([] ++ [Mount nodeC_accepting])) draggingA
       (Some targetC)
       = [Dispatch DropPending; Dispatch (DropResolved (node_id nodeC_accepting))]
     ↔ ∃ f, onDropProp nodeC_accepting = Some f
          ∧ f draggingA = Fulfilled
          ∧ onDropPromise nodeC_accepting = Some Fulfilled).
Proof.
  split; [reflexivity|].
  exact (drop_resolves_only_if_both_fulfil [] nodeC_accepting draggingA targetC
           eq_refl).
Defined.

Lemma mount_unmount_of_Ab_c :
  registry_after [Mount nodeC] !! Some (node_id nodeAb_c) = None
  ∧ DndNode_unregister (DndNode_register (registry_after [Mount nodeC]) nodeAb_c)
      nodeAb_c
    = registry_after [Mount nodeC].
Proof.
  split; [reflexivity|].
  exact (mount_unmount_round_trip (registry_after [Mount nodeC]) nodeAb_c eq_refl).
Defined.

(** The node [b-c] of namespace [a] and the node [c] of namespace [a-b]
    share the id [a-b-c]. *)
Lemma node_id_collision_a_b_c :
  idProp nodeA_b_c = "b" +:+ "-" +:+ idProp nodeAb_c
  ∧ namespaceProp nodeAb_c = namespaceProp nodeA_b_c +:+ "-" +:+ "b"
  ∧ node_id nodeA_b_c = node_id nodeAb_c.
Proof.
  split; [reflexivity|]. split; [reflexivity|].
  exact (node_id_collision nodeA_b_c nodeAb_c "b" eq_refl eq_refl).
Defined.

Lemma unmount_of_twin_a_b_c :
  node_id nodeA_b_c = node_id nodeAb_c
  ∧ target_id targetAb_c = node_id nodeAb_c
  ∧ registry_after ([] ++ [Mount nodeA_b_c; Mount nodeAb_c; Unmount nodeA_b_c])
      !! Some (node_id nodeAb_c) = None
  ∧ onDragEnd
      (registry_after ([] ++ [Mount nodeA_b_c; Mount nodeAb_c; Unmount nodeA_b_c]))
      draggingA (Some targetAb_c)
    = [Dispatch (DropResolved (node_id nodeAb_c))].
Proof.
  split; [reflexivity|]. split; [reflexivity|].
  exact (unmount_removes_twin_registration [] nodeA_b_c nodeAb_c draggingA
           targetAb_c eq_refl eq_refl).
Defined.

Lemma remount_of_twin_a_b_c :
  node_id nodeA_b_c = node_id nodeAb_c
  ∧ DndNode_register (DndNode_register (registry_after [Mount nodeC]) nodeA_b_c)
      nodeAb_c
    = DndNode_register (registry_after [Mount nodeC]) nodeAb_c
  ∧ ∀ k : JsId, k ≠ Some (node_id nodeAb_c) →
      DndNode_register (DndNode_register (registry_after [Mount nodeC]) nodeA_b_c)
        nodeAb_c !! k
      = registry_after [Mount nodeC] !! k.
Proof.
  split; [reflexivity|].
  exact (remount_replaces_registration (registry_after [Mount nodeC])
           nodeA_b_c nodeAb_c eq_refl).
Defined.

Lemma registry_entry_of_Ab_c :
  ∃ reg,
    registry_after [Mount nodeC; Mount nodeAb_c; Unmount nodeC]
      !! Some "a-b-c" = Some reg
    ∧ ∃ props,
        Mount props ∈ [Mount nodeC; Mount nodeAb_c; Unmount nodeC]
        ∧ Some "a-b-c" = Some (node_id props)
        ∧ truthy (Some "a-b-c") = true
        ∧ onDrop reg = Some (handleDrop props)
        ∧ enableDrop reg = enableDropProp props.
Proof.
  eexists. split; [reflexivity|].
  eapply (registry_holds_mounted_nodes_only
            [Mount nodeC; Mount nodeAb_c; Unmount nodeC] (Some "a-b-c")).
  reflexivity.
Defined.

(** A maximum of -1 with three entities dragged: the first two. *)
Lemma overlay_maximum_minus_1 :
  (-1 < 0)%Z
  ∧ rendered_visuals (DndOverlayContent true (Some (-1)%Z) [entA; entB; entC] id)
    = id <$> take (length [entA; entB; entC] - Z.to_nat (- -1)) [entA; entB; entC].
Proof.
  assert (H1 : (-1 < 0)%Z) by lia.
  split; [exact H1|].
  exact (overlay_negative_maximum_hides_tail (-1) [entA; entB; entC] id H1).
Defined.

(** Two entities dragged: the badge, with 2, is on the first element. *)
Lemma overlay_badge_of_A_and_B :
  ∃ out p,
    DndOverlayContent true None [entA; entB] id = Some out
    ∧ out !! 0 = Some p
    ∧ pos_children p ≫= badge = Some 2
    ∧ (0 = 0 ∧ 2 = length [entA; entB] ∧ 1 < length [entA; entB]).
Proof.
  eexists _, _. split; [reflexivity|]. split; [reflexivity|].
  split; [reflexivity|].
  eapply (overlay_badge_only_on_first true None [entA; entB] id _ 0 _ 2);
    reflexivity.
Defined.
